(** * Tic-tac-toe: the game-state core of [App.tsx] and [gameSlice]

    The repository holds the same game twice: a [Board] component that keeps
    its state in four [useState] cells, and a Redux slice ([gameSlice]) with a
    [Board] component that dispatches to it.  Both are embedded here, each in
    a module of its own, over one state record.

    JavaScript values are modelled as follows.
    - [SquareValue] = ['X' | 'O' | null] is [option Player], [None] being
      [null].
    - Reading an array at an index that is no element yields [undefined];
      a read is therefore an [option] of the element type ([None] being
      [undefined]).
    - [currentMove], board positions and the win counters are JavaScript
      numbers.  They are integers in every use the program makes of them and
      are modelled by [Z]; [%] is the truncating remainder [Z.rem].
      Arithmetic on [Z] is exact, as the arithmetic of the program is on
      safe integers (of magnitude below [2^53], see [safeInteger]); what is
      proved of [+ 1] on a tally or of the row of a position is stated for
      safe integers.
    - Reading a property of [undefined] throws a [TypeError]; code that can
      throw returns an [option], [None] being the exception. *)

From Stdlib Require Import ZArith Lia.
From Stdlib Require DecimalString.
From stdpp Require Import base decidable option list strings.

Local Open Scope Z_scope.

(** ** Data model *)

Inductive Player : Set := X | O.

#[global] Instance Player_eq_dec : EqDecision Player.
Proof. solve_decision. Defined.

(** [type SquareValue = 'X' | 'O' | null] *)
Abbreviation SquareValue := (option Player).

(** [interface MoveHistory { squares: SquareValue[]; position?: number }] *)
Record MoveHistory : Set := mkMove {
  squares : list SquareValue;
  position : option Z
}.

#[global] Instance MoveHistory_eq_dec : EqDecision MoveHistory.
Proof. solve_decision. Defined.

(** [{ X: number, O: number }] *)
Record Wins : Set := mkWins {
  wins_X : Z;
  wins_O : Z
}.

(** [interface GameState]; the [useState] component holds the same four
    values in four separate cells. *)
Record GameState : Set := mkState {
  history : list MoveHistory;
  currentMove : Z;
  wins : Wins;
  xStartsFirst : bool
}.

(** ** JavaScript array primitives *)

(** [arr[i]] for a number [i]: [undefined] outside of the array. *)
Definition js_index {A : Type} (arr : list A) (i : Z) : option A :=
  if decide (0 ≤ i) then arr !! Z.to_nat i else None.

(** [arr.slice(0, stop)]: a negative [stop] counts from the end of the
    array, and the result never goes past the end. *)
Definition js_slice0 {A : Type} (arr : list A) (stop : Z) : list A :=
  if decide (stop < 0)
  then take (Z.to_nat (Z.max (Z.of_nat (length arr) + stop) 0)) arr
  else take (Z.to_nat (Z.min stop (Z.of_nat (length arr)))) arr.

(** [arr[i] = v] on a copy of the array, for [i] an index of the array.
    Every assignment of the program is guarded by [arr[i] === null], which
    makes [i] such an index (see [js_index_Some_range]). *)
Definition js_assign {A : Type} (arr : list A) (i : Z) (v : A) : list A :=
  <[Z.to_nat i := v]> arr.

(** [Number.isSafeInteger(n)] for an integer [n]: the magnitude is at most
    [Number.MAX_SAFE_INTEGER], which is [2^53 - 1].  On safe integers [+ 1]
    and [Math.floor(n / 3)] are exact in the program, as they are on [Z]. *)
Definition safeInteger (n : Z) : Prop := - 2 ^ 53 < n < 2 ^ 53.

(** A value of type [SquareValue | undefined] in a boolean context:
    the strings ['X'] and ['O'] are truthy, [null] and [undefined] are not. *)
Definition truthy (v : option SquareValue) : bool :=
  match v with
  | Some (Some _) => true
  | _ => false
  end.

(** [Array(9).fill(null)] *)
Definition emptyBoard : list SquareValue := replicate 9 None.

(** [{ squares: Array(9).fill(null) }] *)
Definition initialRecord : MoveHistory :=
  {| squares := emptyBoard; position := None |}.

(** ** [calculateWinner]

    The function occurs twice in the repository (next to the [useState]
    component and in [gameSlice]) with the same text. *)

Definition lines : list (nat * nat * nat) :=
  [ (0, 1, 2); (3, 4, 5); (6, 7, 8);
    (0, 3, 6); (1, 4, 7); (2, 5, 8);
    (0, 4, 8); (2, 4, 6) ]%nat.

(** The test of the loop body:
    [squares[a] && squares[a] === squares[b] && squares[a] === squares[c]]. *)
Definition line_test (sq : list SquareValue) (l : nat * nat * nat) : bool :=
  let '(a, b, c) := l in
  truthy (sq !! a)
  && bool_decide (sq !! a = sq !! b)
  && bool_decide (sq !! a = sq !! c).

(** The [for] loop over [lines], returning [squares[a]] at the first line
    that passes the test and [null] after the last one.  A truthy
    [squares[a]] is an element of the array, so the [undefined] case of the
    returned read does not occur and is mapped to [null]. *)
Fixpoint scan_lines (ls : list (nat * nat * nat)) (sq : list SquareValue)
  : SquareValue :=
  match ls with
  | [] => None
  | l :: rest =>
      if line_test sq l then default None (sq !! l.1.1)
      else scan_lines rest sq
  end.

Definition calculateWinner (sq : list SquareValue) : SquareValue :=
  scan_lines lines sq.

(** A line all three cells of which hold the mark [m]. *)
Definition line_holds (sq : list SquareValue) (l : nat * nat * nat)
  (m : Player) : Prop :=
  sq !! l.1.1 = Some (Some m) ∧ sq !! l.1.2 = Some (Some m)
  ∧ sq !! l.2 = Some (Some m).

(** The label of entry [moveIndex] of the move list (same text in both
    [Board] components): which player "made this move". *)
Definition movePlayer (xStartsFirst : bool) (moveIndex : Z) : Player :=
  if xStartsFirst
  then (if bool_decide (Z.rem moveIndex 2 = 1) then X else O)
  else (if bool_decide (Z.rem moveIndex 2 = 1) then O else X).

(** [xIsNext ? 'X' : 'O'], the mark a click places and the player the
    status line announces. *)
Definition markOf (xIsNext : bool) : Player := if xIsNext then X else O.

(** ** The [useState] implementation (first [Board] component)

    A handler is a closure over the values [st] of the render in which it was
    created.  Calls of the setters within one handler are applied together;
    each setter replaces one cell, [setWins] being called with an updater
    function of the previous value. *)
Module Hooks.

Definition initialState : GameState :=
  {| history := [initialRecord]; currentMove := 0;
     wins := {| wins_X := 0; wins_O := 0 |}; xStartsFirst := true |}.

Definition setHistory (h : list MoveHistory) (st : GameState) : GameState :=
  {| history := h; currentMove := currentMove st;
     wins := wins st; xStartsFirst := xStartsFirst st |}.

Definition setCurrentMove (m : Z) (st : GameState) : GameState :=
  {| history := history st; currentMove := m;
     wins := wins st; xStartsFirst := xStartsFirst st |}.

Definition setWins (f : Wins → Wins) (st : GameState) : GameState :=
  {| history := history st; currentMove := currentMove st;
     wins := f (wins st); xStartsFirst := xStartsFirst st |}.

Definition setXStartsFirst (b : bool) (st : GameState) : GameState :=
  {| history := history st; currentMove := currentMove st;
     wins := wins st; xStartsFirst := b |}.

(** [prevWins[winner]] *)
Definition wins_get (p : Player) (w : Wins) : Z :=
  match p with X => wins_X w | O => wins_O w end.

(** [{ ...prevWins, [winner]: v }] *)
Definition wins_set (p : Player) (v : Z) (w : Wins) : Wins :=
  match p with
  | X => {| wins_X := v; wins_O := wins_O w |}
  | O => {| wins_X := wins_X w; wins_O := v |}
  end.

(** [history[currentMove].squares]; throws when [history[currentMove]] is
    [undefined]. *)
Definition currentSquares (st : GameState) : option (list SquareValue) :=
  squares <$> js_index (history st) (currentMove st).

Definition xIsNext (st : GameState) : bool :=
  if xStartsFirst st
  then bool_decide (Z.rem (currentMove st) 2 = 0)
  else bool_decide (Z.rem (currentMove st) 2 = 1).

(** [calculateWinner(currentSquares)] *)
Definition winner (st : GameState) : option SquareValue :=
  calculateWinner <$> currentSquares st.

Definition handlePlay (st : GameState) (nextSquares : list SquareValue)
  (pos : Z) : GameState :=
  let nextHistory :=
    js_slice0 (history st) (currentMove st + 1)
    ++ [ {| squares := nextSquares; position := Some pos |} ] in
  setCurrentMove (Z.of_nat (length nextHistory) - 1)
    (setHistory nextHistory st).

Definition jumpTo (st : GameState) (move : Z) : GameState :=
  setCurrentMove move st.

(** [if (currentSquares[i] !== null || winner) return;] and the move. *)
Definition handleCLick (st : GameState) (i : Z) : option GameState :=
  sq ← currentSquares st;
  if bool_decide (js_index sq i ≠ Some None)
     || truthy (Some (calculateWinner sq))
  then Some st
  else
    let nextSquare := js_assign sq i (Some (markOf (xIsNext st))) in
    Some (handlePlay st nextSquare i).

Definition resetGame (st : GameState) : GameState :=
  setCurrentMove 0 (setHistory [initialRecord] st).

(** The handler of the "Play Again" button; [winner] is the value computed
    by the render.  [prevWins[winner] + 1] is the exact successor, which is
    what the program computes for a tally that is a safe integer. *)
Definition playAgain (st : GameState) : option GameState :=
  w ← winner st;
  Some (resetGame
          match w with
          | Some p =>
              setXStartsFirst (bool_decide (w = Some O))
                (setWins (λ prevWins,
                            wins_set p (wins_get p prevWins + 1) prevWins) st)
          | None => st
          end).

End Hooks.

(** ** The Redux implementation ([gameSlice] and the second [Board])

    A reducer maps the state and the payload of the action to the next
    state. *)
Module Slice.

Definition initialState : GameState :=
  {| history := [initialRecord]; currentMove := 0;
     wins := {| wins_X := 0; wins_O := 0 |}; xStartsFirst := true |}.

(** reducer [makeMove], payload [{ squares, position }] *)
Definition makeMove (state : GameState) (sq : list SquareValue) (pos : Z)
  : GameState :=
  let history' :=
    js_slice0 (history state) (currentMove state + 1)
    ++ [ {| squares := sq; position := Some pos |} ] in
  {| history := history';
     currentMove := Z.of_nat (length history') - 1;
     wins := wins state; xStartsFirst := xStartsFirst state |}.

(** reducer [jumpToMove] *)
Definition jumpToMove (state : GameState) (payload : Z) : GameState :=
  {| history := history state; currentMove := payload;
     wins := wins state; xStartsFirst := xStartsFirst state |}.

(** reducer [resetGame] *)
Definition resetGame (state : GameState) : GameState :=
  {| history := [initialRecord]; currentMove := 0;
     wins := wins state; xStartsFirst := xStartsFirst state |}.

(** reducer [playAgain], payload [winner].  [state.wins.X += 1] is the
    exact successor, which is what the program computes for a tally that is
    a safe integer. *)
Definition playAgain (state : GameState) (winner : SquareValue) : GameState :=
  let state' :=
    match winner with
    | Some w =>
        {| history := history state; currentMove := currentMove state;
           wins :=
             if decide (w = X)
             then {| wins_X := wins_X (wins state) + 1;
                     wins_O := wins_O (wins state) |}
             else if decide (w = O)
             then {| wins_X := wins_X (wins state);
                     wins_O := wins_O (wins state) + 1 |}
             else wins state;
           xStartsFirst := bool_decide (winner = Some O) |}
    | None => state
    end in
  {| history := [initialRecord]; currentMove := 0;
     wins := wins state'; xStartsFirst := xStartsFirst state' |}.

(** Selectors *)
Definition selectHistory (state : GameState) : list MoveHistory :=
  history state.

Definition selectCurrentMove (state : GameState) : Z := currentMove state.

(** [state.game.history[state.game.currentMove].squares]; throws when the
    indexed entry is [undefined]. *)
Definition selectCurrentSquares (state : GameState)
  : option (list SquareValue) :=
  squares <$> js_index (history state) (currentMove state).

Definition selectWins (state : GameState) : Wins := wins state.

Definition selectXStartsFirst (state : GameState) : bool :=
  xStartsFirst state.

Definition selectXIsNext (state : GameState) : bool :=
  if xStartsFirst state
  then bool_decide (Z.rem (currentMove state) 2 = 0)
  else bool_decide (Z.rem (currentMove state) 2 = 1).

(** [handleClick] of the Redux [Board]: the guard, then
    [dispatch(makeMove({ squares: nextSquare, position: i }))]. *)
Definition handleClick (state : GameState) (i : Z) : option GameState :=
  sq ← selectCurrentSquares state;
  if bool_decide (js_index sq i ≠ Some None)
     || truthy (Some (calculateWinner sq))
  then Some state
  else
    let nextSquare := js_assign sq i (Some (markOf (selectXIsNext state))) in
    Some (makeMove state nextSquare i).

(** The "Play Again" button: [dispatch(playAgain(winner))] with
    [winner = calculateWinner(currentSquares)]. *)
Definition playAgainClick (state : GameState) : option GameState :=
  sq ← selectCurrentSquares state;
  Some (playAgain state (calculateWinner sq)).

End Slice.

(** ** Sequences of transitions

    The four operations of the store with the preconditions under which the
    view invokes them: a move at an empty square of a board without winner,
    a jump to an index of the history. *)

Inductive Op : Set :=
  | ApplyMove (pos : Z)
  | JumpTo (index : Z)
  | ResetRound
  | StartNextRound (winner : SquareValue).

Definition legalMove (st : GameState) (pos : Z) : Prop :=
  ∃ sq, Slice.selectCurrentSquares st = Some sq
        ∧ js_index sq pos = Some None
        ∧ calculateWinner sq = None.

Definition precondition (st : GameState) (op : Op) : Prop :=
  match op with
  | ApplyMove pos => legalMove st pos
  | JumpTo index => 0 ≤ index < Z.of_nat (length (history st))
  | ResetRound | StartNextRound _ => True
  end.

Definition exec (st : GameState) (op : Op) : option GameState :=
  match op with
  | ApplyMove pos => Slice.handleClick st pos
  | JumpTo index => Some (Slice.jumpToMove st index)
  | ResetRound => Some (Slice.resetGame st)
  | StartNextRound w => Some (Slice.playAgain st w)
  end.

Inductive reachable : GameState → Prop :=
  | reachable_init : reachable Slice.initialState
  | reachable_step st op st' :
      reachable st → precondition st op → exec st op = Some st' →
      reachable st'.

(** The mark in the square a record was produced by, if the record has a
    position and the square is on the board. *)
Definition placedMark (r : MoveHistory) : option SquareValue :=
  pos ← position r; js_index (squares r) pos.

(** The invariant of the reachable states: the history starts with the
    initial record, [currentMove] is an index of the history, and every later
    record holds, in the square it was produced by, the mark the move list
    shows for its index. *)
Definition wellFormed (st : GameState) : Prop :=
  history st !! 0%nat = Some initialRecord
  ∧ 0 ≤ currentMove st < Z.of_nat (length (history st))
  ∧ ∀ (k : nat) (r : MoveHistory),
      (0 < k)%nat → history st !! k = Some r →
      placedMark r = Some (Some (movePlayer (xStartsFirst st) (Z.of_nat k))).

(** Running a list of operations from a state, each through [exec]. *)
Fixpoint run (ops : list Op) (st : GameState) : option GameState :=
  match ops with
  | [] => Some st
  | op :: rest => st' ← exec st op; run rest st'
  end.

(** Sample states: a round that X has won with the moves 0, 3, 1, 4, 2, the
    same round viewed again at its second move, and the round after it. *)
Definition xWonState : GameState :=
  default Slice.initialState
    (run [ApplyMove 0; ApplyMove 3; ApplyMove 1; ApplyMove 4; ApplyMove 2]
       Slice.initialState).

Definition replayState : GameState := Slice.jumpToMove xWonState 2.

Definition secondRoundState : GameState := Slice.playAgain xWonState (Some X).

(** ** The view

    What the two [Board] components render from the state (same text in
    both): the description of a square, the move list, and the status line.
    An element is modelled by the data it shows and the handler it carries. *)

(** [String(n)] for an integer [n]: decimal digits, with a minus sign for a
    negative number. *)
Definition js_string_of_Z (n : Z) : string :=
  DecimalString.NilZero.string_of_int (Z.to_int n).

(** [Math.floor(position / 3) + 1], for a position that is a safe
    integer (the quotient is then rounded to a number with the same
    floor). *)
Definition positionRow (pos : Z) : Z := pos / 3 + 1.

(** [(position % 3) + 1] *)
Definition positionCol (pos : Z) : Z := Z.rem pos 3 + 1.

(** [getPositionDescription]: the template [`(${row},${col})`]. *)
Definition getPositionDescription (pos : Z) : string :=
  "(" +:+ js_string_of_Z (positionRow pos) +:+ ","
  +:+ js_string_of_Z (positionCol pos) +:+ ")".

(** The content of a button of the move list. *)
Inductive MoveLabel : Set :=
  | ResetGameLabel
  | PlacedLabel (player : Player) (placedAt : string).

(** A [<li>] of the move list: its key, whether its button has the class
    [current-move], the argument of the [jumpTo] of its [onClick], and its
    content. *)
Record MoveEntry : Set := mkEntry {
  entryKey : Z;
  entryCurrent : bool;
  entryJump : Z;
  entryLabel : MoveLabel
}.

(** The callback of [history.map((historyItem, moveIndex) => ...)]. *)
Definition moveEntry (st : GameState) (moveIndex : nat)
  (historyItem : MoveHistory) : MoveEntry :=
  let idx := Z.of_nat moveIndex in
  if bool_decide (idx = 0)
  then {| entryKey := idx;
          entryCurrent := bool_decide (idx = currentMove st);
          entryJump := idx;
          entryLabel := ResetGameLabel |}
  else
    let player := movePlayer (xStartsFirst st) idx in
    let placedAt :=
      match position historyItem with
      | Some pos => getPositionDescription pos
      | None => ""
      end in
    {| entryKey := idx;
       entryCurrent := bool_decide (idx = currentMove st);
       entryJump := idx;
       entryLabel := PlacedLabel player placedAt |}.

Definition moves (st : GameState) : list MoveEntry :=
  imap (moveEntry st) (history st).

(** The status line. *)
Inductive Status : Set :=
  | StatusWinner (w : Player)
  | StatusDraw
  | StatusNext (nextPlayer : Player).

(** [if (winner) ... else if (currentMove === 9) ... else ...]; the render
    has read the current board before, which throws when there is none. *)
Definition status (st : GameState) : option Status :=
  sq ← Slice.selectCurrentSquares st;
  Some match calculateWinner sq with
       | Some w => StatusWinner w
       | None =>
           if bool_decide (currentMove st = 9) then StatusDraw
           else StatusNext (markOf (Slice.selectXIsNext st))
       end.

(** The events of the rendered view: a click on one of the nine squares
    ([handleClick(0)] ... [handleClick(8)]), on a button of the move list,
    or on "Play Again". *)
Inductive viewStep (st : GameState) : GameState → Prop :=
  | view_square (i : Z) (st' : GameState) :
      0 ≤ i ≤ 8 → Slice.handleClick st i = Some st' → viewStep st st'
  | view_move (e : MoveEntry) :
      is_Some (Slice.selectCurrentSquares st) → e ∈ moves st →
      viewStep st (Slice.jumpToMove st (entryJump e))
  | view_playAgain (st' : GameState) :
      Slice.playAgainClick st = Some st' → viewStep st st'.

Inductive viewReachable : GameState → Prop :=
  | viewReachable_init : viewReachable Slice.initialState
  | viewReachable_step st st' :
      viewReachable st → viewStep st st' → viewReachable st'.

(** ** Boards of a round *)

(** The number of marks on a board. *)
Fixpoint countMarks (sq : list SquareValue) : nat :=
  match sq with
  | [] => 0
  | v :: rest =>
      (match v with Some _ => 1 | None => 0 end + countMarks rest)%nat
  end.

(** The invariant of the boards of the history: the board at index [k] has
    nine squares, [k] of them marked; the board before it had no winner, and
    it differs from that board in the one square of its position, which was
    empty and now holds the mark of the player of index [k]. *)
Definition roundInvariant (st : GameState) : Prop :=
  (∀ (k : nat) (r : MoveHistory),
     history st !! k = Some r →
     length (squares r) = 9%nat ∧ countMarks (squares r) = k)
  ∧ (∀ (k : nat) (r r' : MoveHistory),
       history st !! k = Some r → history st !! S k = Some r' →
       calculateWinner (squares r) = None
       ∧ ∃ pos, position r' = Some pos
                ∧ js_index (squares r) pos = Some None
                ∧ squares r' =
                    js_assign (squares r) pos
                      (Some (movePlayer (xStartsFirst st) (Z.of_nat (S k))))).

(** The other player. *)
Definition opponent (p : Player) : Player :=
  match p with X => O | O => X end.

(** ** Facts about the array primitives *)

Lemma js_index_Some_range {A : Type} (arr : list A) (i : Z) (v : A) :
  js_index arr i = Some v → 0 ≤ i < Z.of_nat (length arr).
Proof.
  unfold js_index. case_decide; [|done].
  intros Hl%lookup_lt_Some. lia.
Qed.

Lemma js_index_in_range {A : Type} (arr : list A) (i : Z) :
  0 ≤ i < Z.of_nat (length arr) → is_Some (js_index arr i).
Proof.
  intros Hi. unfold js_index. case_decide; [|lia].
  apply lookup_lt_is_Some. lia.
Qed.

Lemma js_slice0_in_range {A : Type} (arr : list A) (k : Z) :
  0 ≤ k → js_slice0 arr (k + 1) = take (S (Z.to_nat k)) arr.
Proof.
  intros Hk. unfold js_slice0. case_decide; [lia|].
  destruct (decide (k + 1 ≤ Z.of_nat (length arr))) as [Hle|Hgt].
  - rewrite Z.min_l by done. f_equal. lia.
  - rewrite Z.min_r by lia. rewrite Nat2Z.id.
    rewrite !take_ge; [done| lia | lia].
Qed.

(** ** Facts about [calculateWinner] *)

Lemma line_test_holds (sq : list SquareValue) (l : nat * nat * nat) :
  line_test sq l = true ↔ ∃ m, line_holds sq l m.
Proof.
  destruct l as [[a b] c]. unfold line_test, line_holds. simpl. split.
  - intros H. apply andb_prop in H as [H Hc]. apply andb_prop in H as [Ha Hb].
    apply bool_decide_eq_true in Hb, Hc.
    destruct (sq !! a) as [[m|]|] eqn:Ea; try done.
    exists m. by rewrite <- Hb, <- Hc.
  - intros (m & -> & -> & ->). simpl.
    by rewrite !bool_decide_eq_true_2.
Qed.

Lemma scan_lines_first (sq : list SquareValue)
  (before after : list (nat * nat * nat)) (l : nat * nat * nat) (m : Player) :
  Forall (λ l', ∀ m', ¬ line_holds sq l' m') before →
  line_holds sq l m →
  scan_lines (before ++ l :: after) sq = Some m.
Proof.
  intros Hbefore Hl. induction Hbefore as [|l' before Hl' _ IH]; simpl.
  - assert (line_test sq l = true) as -> by (apply line_test_holds; eauto).
    destruct Hl as (-> & _). done.
  - destruct (line_test sq l') eqn:E; [|done].
    apply line_test_holds in E as [m' Hm']. by destruct (Hl' m').
Qed.

Lemma scan_lines_none (sq : list SquareValue) (ls : list (nat * nat * nat)) :
  (∀ l m, l ∈ ls → ¬ line_holds sq l m) → scan_lines ls sq = None.
Proof.
  induction ls as [|l ls IH]; intros Hno; simpl; [done|].
  destruct (line_test sq l) eqn:E.
  - apply line_test_holds in E as [m Hm].
    destruct (Hno l m); [left | done].
  - apply IH. intros l' m' Hin. apply Hno. by right.
Qed.

Lemma scan_lines_some (sq : list SquareValue) (ls : list (nat * nat * nat))
  (m : Player) :
  scan_lines ls sq = Some m →
  ∃ before l after,
    ls = before ++ l :: after
    ∧ Forall (λ l', ∀ m', ¬ line_holds sq l' m') before
    ∧ line_holds sq l m.
Proof.
  induction ls as [|l ls IH]; simpl; [done|].
  destruct (line_test sq l) eqn:E.
  - intros Hm. apply line_test_holds in E as [m' Hm'].
    exists [], l, ls. split_and!; [done | constructor |].
    destruct Hm' as (Ha & Hb & Hc). rewrite Ha in Hm. simpl in Hm.
    by simplify_eq.
  - intros (before & l0 & after & -> & Hb & Hl)%IH.
    exists (l :: before), l0, after. split_and!; [done | | done].
    constructor; [|done]. intros m' Hm'.
    assert (line_test sq l = true) by (apply line_test_holds; eauto).
    congruence.
Qed.

Lemma scan_lines_complete (sq : list SquareValue)
  (ls : list (nat * nat * nat)) (l : nat * nat * nat) (m : Player) :
  l ∈ ls → line_holds sq l m → scan_lines ls sq ≠ None.
Proof.
  intros Hin Hl Hnone. induction Hin as [l ls|l l0 ls Hin IH]; simpl in Hnone.
  - assert (line_test sq l = true) as Ht by (apply line_test_holds; eauto).
    rewrite Ht in Hnone. destruct Hl as (Ha & _). by rewrite Ha in Hnone.
  - destruct (line_test sq l0) eqn:E0; [|by apply IH].
    apply line_test_holds in E0 as [m0 (Ha & _)]. by rewrite Ha in Hnone.
Qed.

(** C1.  [calculateWinner] scans the eight lines (0,1,2), (3,4,5), (6,7,8),
    (0,3,6), (1,4,7), (2,5,8), (0,4,8), (2,4,6) in this order.  On every
    board, the first line whose three cells hold one and the same mark
    decides the result, which is that mark; so a board with such a line
    never yields [null], and yields the mark [m] whenever all its complete
    lines hold [m].  When no line is complete the result is [null]. *)
Theorem calculateWinner_first_line (sq : list SquareValue) :
  lines = [ (0, 1, 2); (3, 4, 5); (6, 7, 8); (0, 3, 6); (1, 4, 7);
            (2, 5, 8); (0, 4, 8); (2, 4, 6) ]%nat
  ∧ (∀ before l after m,
        lines = before ++ l :: after →
        Forall (λ l', ∀ m', ¬ line_holds sq l' m') before →
        line_holds sq l m →
        calculateWinner sq = Some m)
  ∧ (∀ l m,
        l ∈ lines → line_holds sq l m →
        ∃ m', calculateWinner sq = Some m'
              ∧ ∃ l', l' ∈ lines ∧ line_holds sq l' m')
  ∧ (∀ l m,
        l ∈ lines → line_holds sq l m →
        (∀ l' m', l' ∈ lines → line_holds sq l' m' → m' = m) →
        calculateWinner sq = Some m)
  ∧ ((∀ l m, l ∈ lines → ¬ line_holds sq l m) → calculateWinner sq = None).
Proof.
  assert (Hany : ∀ l m, l ∈ lines → line_holds sq l m →
            ∃ m', calculateWinner sq = Some m'
                  ∧ ∃ l', l' ∈ lines ∧ line_holds sq l' m').
  { intros l m Hin Hl. unfold calculateWinner.
    destruct (scan_lines lines sq) as [m'|] eqn:E.
    - exists m'. split; [done|].
      apply scan_lines_some in E as (before & l' & after & Heq & _ & Hl').
      exists l'. split; [|done]. rewrite Heq.
      apply elem_of_app. right. left.
    - by destruct (scan_lines_complete sq lines l m Hin Hl). }
  split_and!.
  - reflexivity.
  - intros before l after m Heq Hbefore Hl. unfold calculateWinner.
    rewrite Heq. by apply scan_lines_first.
  - exact Hany.
  - intros l m Hin Hl Huniq.
    destruct (Hany l m Hin Hl) as (m' & Hw & l' & Hin' & Hl').
    by rewrite Hw, (Huniq l' m' Hin' Hl').
  - intros Hno. by apply scan_lines_none.
Qed.

Lemma calculateWinner_first_line_witness :
  calculateWinner [Some O; Some O; Some O;
                   Some X; Some X; Some X;
                   None; None; None] = Some O
  ∧ calculateWinner [Some O; None; Some X;
                     None; Some O; Some X;
                     None; None; Some X] = Some X
  ∧ calculateWinner [Some X; Some O; Some X;
                     Some X; Some O; Some O;
                     Some O; Some X; Some X] = None.
Proof.
  split_and!.
  - destruct (calculateWinner_first_line
                [Some O; Some O; Some O; Some X; Some X; Some X;
                 None; None; None]) as (_ & Hfirst & _).
    apply (Hfirst [] (0, 1, 2)%nat
             [(3, 4, 5); (6, 7, 8); (0, 3, 6); (1, 4, 7); (2, 5, 8);
              (0, 4, 8); (2, 4, 6)]%nat O);
      [reflexivity | constructor | repeat split].
  - destruct (calculateWinner_first_line
                [Some O; None; Some X; None; Some O; Some X;
                 None; None; Some X]) as (_ & _ & _ & Huniq & _).
    apply (Huniq (2, 5, 8)%nat X).
    + repeat first [left | right].
    + repeat split.
    + intros l' m' Hin (Ha & Hb & Hc).
      repeat (apply elem_of_cons in Hin as [->|Hin]);
        [..|by apply elem_of_nil in Hin];
        vm_compute in Ha, Hb, Hc; congruence.
  - destruct (calculateWinner_first_line
                [Some X; Some O; Some X; Some X; Some O; Some O;
                 Some O; Some X; Some X]) as (_ & _ & _ & _ & Hnone).
    apply Hnone. intros l m Hin (Ha & Hb & Hc).
    repeat (apply elem_of_cons in Hin as [->|Hin]);
      [..|by apply elem_of_nil in Hin];
      vm_compute in Ha, Hb, Hc; congruence.
Defined.

(** Closes [0 ≤ i < n] on closed terms by evaluation. *)
Ltac in_range := vm_compute; split; [discriminate | reflexivity].

(** ** The two implementations agree *)

Lemma handlePlay_makeMove (st : GameState) (sq : list SquareValue) (pos : Z) :
  Hooks.handlePlay st sq pos = Slice.makeMove st sq pos.
Proof. reflexivity. Qed.

Lemma jumpTo_jumpToMove (st : GameState) (move : Z) :
  Hooks.jumpTo st move = Slice.jumpToMove st move.
Proof. reflexivity. Qed.

Lemma resetGame_resetGame (st : GameState) :
  Hooks.resetGame st = Slice.resetGame st.
Proof. reflexivity. Qed.

Lemma playAgain_playAgain (st : GameState) (w : SquareValue) :
  Hooks.winner st = Some w →
  Hooks.playAgain st = Some (Slice.playAgain st w).
Proof.
  unfold Hooks.playAgain. intros ->. simpl. f_equal.
  destruct w as [[]|]; reflexivity.
Qed.

Lemma playAgain_playAgainClick (st : GameState) :
  Hooks.playAgain st = Slice.playAgainClick st.
Proof.
  unfold Slice.playAgainClick.
  destruct (Hooks.winner st) as [w|] eqn:Hw.
  - rewrite (playAgain_playAgain st w Hw).
    unfold Hooks.winner, Hooks.currentSquares in Hw.
    unfold Slice.selectCurrentSquares.
    destruct (js_index (history st) (currentMove st)); simpl in *; [|done].
    by simplify_eq.
  - unfold Hooks.playAgain. rewrite Hw.
    unfold Hooks.winner, Hooks.currentSquares in Hw.
    unfold Slice.selectCurrentSquares.
    by destruct (js_index (history st) (currentMove st)).
Qed.

Lemma handleCLick_handleClick (st : GameState) (i : Z) :
  Hooks.handleCLick st i = Slice.handleClick st i.
Proof. reflexivity. Qed.

(** ** Moves *)

Lemma makeMove_in_range (st : GameState) (sq : list SquareValue) (pos : Z) :
  0 ≤ currentMove st < Z.of_nat (length (history st)) →
  Slice.makeMove st sq pos =
  {| history := take (S (Z.to_nat (currentMove st))) (history st)
                ++ [ {| squares := sq; position := Some pos |} ];
     currentMove := currentMove st + 1;
     wins := wins st; xStartsFirst := xStartsFirst st |}.
Proof.
  intros Hcm. unfold Slice.makeMove.
  rewrite js_slice0_in_range by lia. f_equal.
  rewrite length_app, length_take, Nat.min_l by lia.
  rewrite Nat2Z.inj_add, Nat2Z.inj_succ, Z2Nat.id by lia. simpl. lia.
Qed.

Lemma handleClick_legal (st : GameState) (sq : list SquareValue) (pos : Z) :
  Slice.selectCurrentSquares st = Some sq →
  js_index sq pos = Some None →
  calculateWinner sq = None →
  Slice.handleClick st pos =
  Some (Slice.makeMove st
          (js_assign sq pos (Some (markOf (Slice.selectXIsNext st)))) pos).
Proof.
  intros Hsq Hpos Hwin. unfold Slice.handleClick. rewrite Hsq. simpl.
  rewrite Hwin. simpl.
  by rewrite bool_decide_eq_false_2 by (by intros []).
Qed.

Lemma handleClick_blocked (st : GameState) (sq : list SquareValue) (pos : Z) :
  Slice.selectCurrentSquares st = Some sq →
  js_index sq pos ≠ Some None ∨ calculateWinner sq ≠ None →
  Slice.handleClick st pos = Some st.
Proof.
  intros Hsq Hguard. unfold Slice.handleClick. rewrite Hsq. simpl.
  destruct Hguard as [Hpos|Hwin].
  - by rewrite bool_decide_eq_true_2.
  - destruct (calculateWinner sq); [|done]. simpl.
    by rewrite orb_true_r.
Qed.

Lemma selectCurrentSquares_range (st : GameState) (sq : list SquareValue) :
  Slice.selectCurrentSquares st = Some sq →
  0 ≤ currentMove st < Z.of_nat (length (history st)).
Proof.
  unfold Slice.selectCurrentSquares.
  destruct (js_index (history st) (currentMove st)) as [r|] eqn:E; [|done].
  intros _. by eapply js_index_Some_range.
Qed.

Lemma js_index_assign_eq {A : Type} (arr : list A) (i : Z) (v : A) :
  0 ≤ i < Z.of_nat (length arr) → js_index (js_assign arr i v) i = Some v.
Proof.
  intros Hi. unfold js_index, js_assign. case_decide; [|lia].
  apply list_lookup_insert_eq. lia.
Qed.

Lemma js_index_assign_ne {A : Type} (arr : list A) (i j : Z) (v : A) :
  0 ≤ i → i ≠ j → js_index (js_assign arr i v) j = js_index arr j.
Proof.
  intros Hi Hne. unfold js_index, js_assign. case_decide; [|done].
  apply list_lookup_insert_ne. lia.
Qed.

(** ** Starting the next round *)

(** C2.  [playAgain] with winner X adds exactly 1 to the X tally and sets
    [xStartsFirst] to [false]; with winner O it adds exactly 1 to the O tally
    and sets [xStartsFirst] to [true]; with no winner it leaves the tallies
    and [xStartsFirst] as they are.  In all three cases the history becomes
    the single initial record (nine empty squares, no position) and
    [currentMove] becomes 0.  This holds of the reducer for every state, and
    of the handler of the [useState] component for every state whose current
    board has the winner in question; the tally that is incremented is
    taken to be a safe integer. *)
Theorem playAgain_updates_tally_and_resets (st : GameState) :
  initialRecord = {| squares := replicate 9 None; position := None |}
  ∧ (safeInteger (wins_X (wins st)) →
     Slice.playAgain st (Some X) =
       {| history := [initialRecord]; currentMove := 0;
          wins := {| wins_X := wins_X (wins st) + 1;
                     wins_O := wins_O (wins st) |};
          xStartsFirst := false |})
  ∧ (safeInteger (wins_O (wins st)) →
     Slice.playAgain st (Some O) =
       {| history := [initialRecord]; currentMove := 0;
          wins := {| wins_X := wins_X (wins st);
                     wins_O := wins_O (wins st) + 1 |};
          xStartsFirst := true |})
  ∧ Slice.playAgain st None =
      {| history := [initialRecord]; currentMove := 0;
         wins := wins st; xStartsFirst := xStartsFirst st |}
  ∧ (Hooks.winner st = Some (Some X) →
     safeInteger (wins_X (wins st)) →
     Hooks.playAgain st =
       Some {| history := [initialRecord]; currentMove := 0;
               wins := {| wins_X := wins_X (wins st) + 1;
                          wins_O := wins_O (wins st) |};
               xStartsFirst := false |})
  ∧ (Hooks.winner st = Some (Some O) →
     safeInteger (wins_O (wins st)) →
     Hooks.playAgain st =
       Some {| history := [initialRecord]; currentMove := 0;
               wins := {| wins_X := wins_X (wins st);
                          wins_O := wins_O (wins st) + 1 |};
               xStartsFirst := true |})
  ∧ (Hooks.winner st = Some None →
     Hooks.playAgain st =
       Some {| history := [initialRecord]; currentMove := 0;
               wins := wins st; xStartsFirst := xStartsFirst st |}).
Proof.
  split; [reflexivity|]. split; [intros _; reflexivity|].
  split; [intros _; reflexivity|]. split; [reflexivity|].
  split_and!.
  - intros Hw _. by rewrite (playAgain_playAgain _ _ Hw).
  - intros Hw _. by rewrite (playAgain_playAgain _ _ Hw).
  - intros Hw. by rewrite (playAgain_playAgain _ _ Hw).
Qed.

Lemma playAgain_updates_tally_and_resets_witness :
  Hooks.winner xWonState = Some (Some X)
  ∧ safeInteger (wins_X (wins xWonState))
  ∧ Hooks.playAgain xWonState =
      Some {| history := [initialRecord]; currentMove := 0;
              wins := {| wins_X := 1; wins_O := 0 |};
              xStartsFirst := false |}
  ∧ Slice.playAgain xWonState (Some X) =
      {| history := [initialRecord]; currentMove := 0;
         wins := {| wins_X := 1; wins_O := 0 |};
         xStartsFirst := false |}.
Proof.
  assert (Hsafe : safeInteger (wins_X (wins xWonState)))
    by (vm_compute; split; reflexivity).
  destruct (playAgain_updates_tally_and_resets xWonState)
    as (_ & HsX & _ & _ & HX & _).
  split; [reflexivity|]. split; [exact Hsafe|]. split.
  - rewrite HX; [reflexivity | reflexivity | exact Hsafe].
  - rewrite HsX; [reflexivity | exact Hsafe].
Defined.

(** ** Time travel *)

(** C3.  In a state whose history has [n] records, for every index [k] with
    [0 <= k < n]: a jump to [k] followed by a move at a legal position yields
    the history made of the first [k+1] records of the old history followed
    by exactly one new record, and [currentMove = k+1]; the records that
    were behind index [k] are gone. *)
Theorem jump_then_move_truncates (st : GameState) (k pos : Z) :
  0 ≤ k < Z.of_nat (length (history st)) →
  legalMove (Slice.jumpToMove st k) pos →
  ∃ r st',
    Slice.handleClick (Slice.jumpToMove st k) pos = Some st'
    ∧ Hooks.handleCLick (Hooks.jumpTo st k) pos = Some st'
    ∧ history st' = take (Z.to_nat (k + 1)) (history st) ++ [r]
    ∧ position r = Some pos
    ∧ Z.of_nat (length (history st')) = k + 2
    ∧ currentMove st' = k + 1
    ∧ wins st' = wins st ∧ xStartsFirst st' = xStartsFirst st.
Proof.
  intros Hk (sq & Hsq & Hpos & Hwin).
  pose proof (handleClick_legal _ _ _ Hsq Hpos Hwin) as Hclick.
  rewrite makeMove_in_range in Hclick by done. simpl in Hclick.
  eexists _, _. split; [exact Hclick|].
  split; [exact Hclick|]. simpl.
  replace (Z.to_nat (k + 1)) with (S (Z.to_nat k)) by lia.
  split_and!; try done.
  rewrite length_app, length_take, Nat.min_l by lia. simpl. lia.
Qed.

Lemma jump_then_move_truncates_witness :
  ∃ r st',
    Slice.handleClick (Slice.jumpToMove xWonState 2) 8 = Some st'
    ∧ Hooks.handleCLick (Hooks.jumpTo xWonState 2) 8 = Some st'
    ∧ history st' = take (Z.to_nat (2 + 1)) (history xWonState) ++ [r]
    ∧ position r = Some 8
    ∧ Z.of_nat (length (history st')) = 2 + 2
    ∧ currentMove st' = 2 + 1
    ∧ wins st' = wins xWonState
    ∧ xStartsFirst st' = xStartsFirst xWonState.
Proof.
  apply (jump_then_move_truncates xWonState 2 8).
  - in_range.
  - unfold legalMove. eexists. split; [reflexivity|]. split; reflexivity.
Defined.

(** C10.  The jump stores the index it is given, whatever integer it is, and
    changes neither the history nor the tallies nor [xStartsFirst].  The
    board of the resulting state can be read exactly when
    [0 <= index < history.length]; for every other index the read
    [history[currentMove].squares] throws. *)
Theorem jumpTo_unchecked (st : GameState) (index : Z) :
  Slice.jumpToMove st index =
    {| history := history st; currentMove := index;
       wins := wins st; xStartsFirst := xStartsFirst st |}
  ∧ Hooks.jumpTo st index = Slice.jumpToMove st index
  ∧ (is_Some (Slice.selectCurrentSquares (Slice.jumpToMove st index))
     ↔ 0 ≤ index < Z.of_nat (length (history st)))
  ∧ (is_Some (Hooks.currentSquares (Hooks.jumpTo st index))
     ↔ 0 ≤ index < Z.of_nat (length (history st))).
Proof.
  assert (Hread : is_Some (squares <$> js_index (history st) index)
                  ↔ 0 ≤ index < Z.of_nat (length (history st))).
  { rewrite fmap_is_Some. split.
    - intros [r Hr]. by eapply js_index_Some_range.
    - apply js_index_in_range. }
  split_and!; done.
Qed.

Lemma jumpTo_unchecked_witness :
  currentMove (Slice.jumpToMove xWonState (-3)) = -3
  ∧ Slice.selectCurrentSquares (Slice.jumpToMove xWonState (-3)) = None
  ∧ currentMove (Slice.jumpToMove xWonState 6) = 6
  ∧ Slice.selectCurrentSquares (Slice.jumpToMove xWonState 6) = None
  ∧ is_Some (Slice.selectCurrentSquares (Slice.jumpToMove xWonState 5)).
Proof.
  split_and!; try reflexivity.
  apply (jumpTo_unchecked xWonState 5). in_range.
Defined.

(** ** Whose turn it is *)

Lemma rem2_even (n : Z) : Z.even n = true → Z.rem n 2 = 0.
Proof.
  intros He. apply Z.even_spec in He as [m ->].
  rewrite Z.mul_comm. by apply Z.rem_mul.
Qed.

Lemma rem2_odd_nonneg (n : Z) : 0 ≤ n → Z.odd n = true → Z.rem n 2 = 1.
Proof.
  intros Hn Ho. rewrite Z.rem_mod_nonneg by lia.
  apply Z.odd_spec in Ho as [m ->].
  rewrite Z.add_comm, Z.mul_comm, Z.mod_add by lia. reflexivity.
Qed.

Lemma xIsNext_parity (st : GameState) :
  0 ≤ currentMove st →
  markOf (Slice.selectXIsNext st) =
  if xStartsFirst st
  then (if Z.even (currentMove st) then X else O)
  else (if Z.even (currentMove st) then O else X).
Proof.
  intros Hcm. unfold Slice.selectXIsNext.
  destruct (Z.even (currentMove st)) eqn:He.
  - rewrite (rem2_even _ He). by destruct (xStartsFirst st).
  - assert (Ho : Z.odd (currentMove st) = true)
      by (by rewrite <- Z.negb_even, He).
    rewrite (rem2_odd_nonneg _ Hcm Ho). by destruct (xStartsFirst st).
Qed.

(** C4.  For every [currentMove] that can be an index of the history, that
    is, for every [currentMove] that is not negative, and for either value
    of [xStartsFirst], the player to move is: X when [xStartsFirst] is true
    and [currentMove] is even, O when [xStartsFirst] is true and
    [currentMove] is odd, O when [xStartsFirst] is false and [currentMove]
    is even, X when [xStartsFirst] is false and [currentMove] is odd.  Both
    components compute it alike. *)
Theorem player_to_move_parity (st : GameState) :
  0 ≤ currentMove st →
  Hooks.xIsNext st = Slice.selectXIsNext st
  ∧ markOf (Slice.selectXIsNext st)
    = (if xStartsFirst st
       then (if Z.even (currentMove st) then X else O)
       else (if Z.even (currentMove st) then O else X))
  ∧ (xStartsFirst st = true → Z.even (currentMove st) = true →
     markOf (Slice.selectXIsNext st) = X)
  ∧ (xStartsFirst st = true → Z.odd (currentMove st) = true →
     markOf (Slice.selectXIsNext st) = O)
  ∧ (xStartsFirst st = false → Z.even (currentMove st) = true →
     markOf (Slice.selectXIsNext st) = O)
  ∧ (xStartsFirst st = false → Z.odd (currentMove st) = true →
     markOf (Slice.selectXIsNext st) = X).
Proof.
  intros Hcm. pose proof (xIsNext_parity st Hcm) as Hpar.
  split; [done|]. split; [exact Hpar|].
  split_and!; intros Hflag Hparity; rewrite Hpar, Hflag.
  - by rewrite Hparity.
  - by rewrite <- Z.negb_odd, Hparity.
  - by rewrite Hparity.
  - by rewrite <- Z.negb_odd, Hparity.
Qed.

Lemma player_to_move_parity_witness :
  markOf (Slice.selectXIsNext xWonState) = O
  ∧ markOf (Slice.selectXIsNext replayState) = X
  ∧ markOf (Slice.selectXIsNext secondRoundState) = O
  ∧ markOf (Slice.selectXIsNext (Slice.jumpToMove secondRoundState 1)) = X.
Proof.
  split_and!.
  - destruct (player_to_move_parity xWonState) as (_ & _ & _ & H & _);
      [vm_compute; discriminate|].
    apply H; reflexivity.
  - destruct (player_to_move_parity replayState) as (_ & _ & H & _);
      [vm_compute; discriminate|].
    apply H; reflexivity.
  - destruct (player_to_move_parity secondRoundState)
      as (_ & _ & _ & _ & H & _); [vm_compute; discriminate|].
    apply H; reflexivity.
  - destruct (player_to_move_parity (Slice.jumpToMove secondRoundState 1))
      as (_ & _ & _ & _ & _ & H); [vm_compute; discriminate|].
    apply H; reflexivity.
Defined.

(** ** A click on a square *)

(** C5.  When the current board holds [null] at [pos] and has no winner, the
    click appends (behind the records up to [currentMove]) a record whose
    board has the length of the current board, holds the mark of the player
    to move at [pos], where the current board holds [null], and agrees with
    the current board at every other index; [currentMove] becomes the new
    length of the history minus 1.  Both components do so. *)
Theorem click_changes_one_cell (st : GameState) (sq : list SquareValue)
  (pos : Z) :
  Slice.selectCurrentSquares st = Some sq →
  js_index sq pos = Some None →
  calculateWinner sq = None →
  ∃ sq' st',
    Slice.handleClick st pos = Some st'
    ∧ Hooks.handleCLick st pos = Some st'
    ∧ history st' =
        take (Z.to_nat (currentMove st + 1)) (history st)
        ++ [ {| squares := sq'; position := Some pos |} ]
    ∧ length sq' = length sq
    ∧ js_index sq' pos = Some (Some (markOf (Slice.selectXIsNext st)))
    ∧ (∀ j, j ≠ pos → js_index sq' j = js_index sq j)
    ∧ currentMove st' = Z.of_nat (length (history st')) - 1
    ∧ Slice.selectCurrentSquares st' = Some sq'
    ∧ wins st' = wins st ∧ xStartsFirst st' = xStartsFirst st.
Proof.
  intros Hsq Hpos Hwin.
  pose proof (selectCurrentSquares_range _ _ Hsq) as Hcm.
  pose proof (js_index_Some_range _ _ _ Hpos) as Hp.
  pose proof (handleClick_legal _ _ _ Hsq Hpos Hwin) as Hclick.
  eexists _, _. split; [exact Hclick|]. split; [exact Hclick|].
  rewrite makeMove_in_range by done. simpl.
  replace (Z.to_nat (currentMove st + 1)) with (S (Z.to_nat (currentMove st)))
    by lia.
  split_and!; try done.
  - apply length_insert.
  - by apply js_index_assign_eq.
  - intros j Hj. apply js_index_assign_ne; [lia | done].
  - rewrite length_app, length_take, Nat.min_l by lia.
    rewrite Nat2Z.inj_add, Nat2Z.inj_succ, Z2Nat.id by lia. simpl. lia.
  - unfold Slice.selectCurrentSquares, js_index. simpl.
    case_decide; [|lia].
    rewrite list_lookup_middle; [done|].
    rewrite length_take. lia.
Qed.

Lemma click_changes_one_cell_witness :
  ∃ sq' st',
    Slice.handleClick replayState 8 = Some st'
    ∧ Hooks.handleCLick replayState 8 = Some st'
    ∧ history st' =
        take (Z.to_nat (currentMove replayState + 1)) (history replayState)
        ++ [ {| squares := sq'; position := Some 8 |} ]
    ∧ length sq' = 9%nat
    ∧ js_index sq' 8 = Some (Some X)
    ∧ (∀ j, j ≠ 8 →
         js_index sq' j =
         js_index [Some X; None; None; Some O; None; None; None; None; None] j)
    ∧ currentMove st' = Z.of_nat (length (history st')) - 1
    ∧ Slice.selectCurrentSquares st' = Some sq'
    ∧ wins st' = wins replayState
    ∧ xStartsFirst st' = xStartsFirst replayState.
Proof.
  apply (click_changes_one_cell replayState
           [Some X; None; None; Some O; None; None; None; None; None] 8);
    reflexivity.
Defined.

(** C8.  When the current board holds anything but [null] at [pos] (a mark,
    or nothing at all because [pos] is no square), or has a winner, the
    click leaves the history, [currentMove], the tallies and [xStartsFirst]
    as they are.  Both components do so. *)
Theorem click_on_taken_or_won_is_noop (st : GameState)
  (sq : list SquareValue) (pos : Z) :
  Slice.selectCurrentSquares st = Some sq →
  js_index sq pos ≠ Some None ∨ calculateWinner sq ≠ None →
  Slice.handleClick st pos = Some st ∧ Hooks.handleCLick st pos = Some st.
Proof.
  intros Hsq Hguard. split; by eapply handleClick_blocked.
Qed.

Lemma click_on_taken_or_won_is_noop_witness :
  (Slice.handleClick replayState 3 = Some replayState
   ∧ Hooks.handleCLick replayState 3 = Some replayState)
  ∧ (Slice.handleClick xWonState 8 = Some xWonState
     ∧ Hooks.handleCLick xWonState 8 = Some xWonState).
Proof.
  split.
  - apply (click_on_taken_or_won_is_noop replayState
             [Some X; None; None; Some O; None; None; None; None; None] 3);
      [reflexivity | left; vm_compute; discriminate].
  - apply (click_on_taken_or_won_is_noop xWonState
             [Some X; Some X; Some X; Some O; Some O; None; None; None; None]
             8);
      [reflexivity | right; vm_compute; discriminate].
Defined.

(** ** The two implementations are one transition system *)

(** C9.  From equal states, [handlePlay] and [makeMove], [jumpTo] and
    [jumpToMove], the two [resetGame] and the two [playAgain] produce equal
    states when given equal arguments, the argument of the [playAgain] of
    the [useState] component being the winner of its current board; the two
    initial states, the two click handlers and the two "Play Again" buttons
    agree as well. *)
Theorem hooks_and_slice_agree (st : GameState) :
  Hooks.initialState = Slice.initialState
  ∧ (∀ sq pos, Hooks.handlePlay st sq pos = Slice.makeMove st sq pos)
  ∧ (∀ move, Hooks.jumpTo st move = Slice.jumpToMove st move)
  ∧ Hooks.resetGame st = Slice.resetGame st
  ∧ (∀ w, Hooks.winner st = Some w →
          Hooks.playAgain st = Some (Slice.playAgain st w))
  ∧ (∀ i, Hooks.handleCLick st i = Slice.handleClick st i)
  ∧ Hooks.playAgain st = Slice.playAgainClick st.
Proof.
  split_and!.
  - reflexivity.
  - apply handlePlay_makeMove.
  - apply jumpTo_jumpToMove.
  - apply resetGame_resetGame.
  - apply playAgain_playAgain.
  - apply handleCLick_handleClick.
  - apply playAgain_playAgainClick.
Qed.

Lemma hooks_and_slice_agree_witness :
  Hooks.playAgain xWonState = Some (Slice.playAgain xWonState (Some X)).
Proof.
  destruct (hooks_and_slice_agree xWonState) as (_ & _ & _ & _ & H & _).
  apply H. reflexivity.
Defined.

(** ** Invariants of the reachable states *)

Lemma markOf_movePlayer (st : GameState) :
  0 ≤ currentMove st →
  markOf (Slice.selectXIsNext st) =
  movePlayer (xStartsFirst st) (currentMove st + 1).
Proof.
  intros Hcm. unfold Slice.selectXIsNext, movePlayer, markOf.
  rewrite !Z.rem_mod_nonneg by lia.
  assert (currentMove st `mod` 2 = 0 ∧ (currentMove st + 1) `mod` 2 = 1
          ∨ currentMove st `mod` 2 = 1 ∧ (currentMove st + 1) `mod` 2 = 0)
    as [[-> ->]|[-> ->]]
    by (Z.div_mod_to_equations; lia).
  - by destruct (xStartsFirst st).
  - by destruct (xStartsFirst st).
Qed.

Lemma exec_total (st : GameState) (op : Op) :
  precondition st op → is_Some (exec st op).
Proof.
  destruct op as [pos|index| |w]; simpl; eauto.
  intros (sq & Hsq & Hpos & Hwin).
  rewrite (handleClick_legal _ _ _ Hsq Hpos Hwin). eauto.
Qed.

Lemma wellFormed_initialState : wellFormed Slice.initialState.
Proof.
  split; [done|]. split; [simpl; lia|].
  intros [|k] r Hk Hr; [lia | done].
Qed.

Lemma wellFormed_fresh_round (w : Wins) (flag : bool) :
  wellFormed {| history := [initialRecord]; currentMove := 0;
                wins := w; xStartsFirst := flag |}.
Proof.
  split; [done|]. split; [simpl; lia|].
  intros [|k] r Hk Hr; [lia | done].
Qed.

Lemma wellFormed_makeMove (st : GameState) (sq : list SquareValue) (pos : Z) :
  wellFormed st →
  Slice.selectCurrentSquares st = Some sq →
  js_index sq pos = Some None →
  wellFormed (Slice.makeMove st
                (js_assign sq pos (Some (markOf (Slice.selectXIsNext st))))
                pos).
Proof.
  intros (H0 & Hcm & Hmarks) Hsq Hpos.
  pose proof (js_index_Some_range _ _ _ Hpos) as Hp.
  rewrite makeMove_in_range by done.
  assert (Hlen : length (take (S (Z.to_nat (currentMove st))) (history st))
                 = S (Z.to_nat (currentMove st)))
    by (rewrite length_take; lia).
  split; [|split]; simpl.
  - rewrite lookup_app_l by lia. rewrite lookup_take_lt by lia. done.
  - rewrite length_app, Hlen. simpl. lia.
  - intros k r Hk [[Hr _]%lookup_take_Some | [Hge Hr]]%lookup_app_Some.
    + by apply Hmarks.
    + rewrite Hlen in Hge, Hr.
      apply list_lookup_singleton_Some in Hr as [Hk' <-].
      assert (k = S (Z.to_nat (currentMove st))) as -> by lia.
      unfold placedMark. simpl.
      rewrite js_index_assign_eq by done.
      rewrite markOf_movePlayer by lia. do 3 f_equal. lia.
Qed.

Lemma wellFormed_exec (st st' : GameState) (op : Op) :
  wellFormed st → precondition st op → exec st op = Some st' →
  wellFormed st'.
Proof.
  intros Hwf Hpre Hexec. destruct op as [pos|index| |w]; simpl in *.
  - destruct Hpre as (sq & Hsq & Hpos & Hwin).
    rewrite (handleClick_legal _ _ _ Hsq Hpos Hwin) in Hexec.
    simplify_eq. by apply wellFormed_makeMove.
  - simplify_eq. destruct Hwf as (H0 & _ & Hmarks).
    split; [exact H0|]. split; [exact Hpre | exact Hmarks].
  - simplify_eq. apply wellFormed_fresh_round.
  - simplify_eq. apply wellFormed_fresh_round.
Qed.

Lemma reachable_wellFormed (st : GameState) : reachable st → wellFormed st.
Proof.
  induction 1 as [|st op st' _ IH Hpre Hexec].
  - apply wellFormed_initialState.
  - by eapply wellFormed_exec.
Qed.

(** A click never leaves the reachable states: it is a legal move or it
    changes nothing. *)
Lemma reachable_click (st st' : GameState) (pos : Z) :
  reachable st → Slice.handleClick st pos = Some st' → reachable st'.
Proof.
  intros Hreach Hclick.
  destruct (Slice.selectCurrentSquares st) as [sq|] eqn:Hsq;
    [|by unfold Slice.handleClick in Hclick; rewrite Hsq in Hclick].
  destruct (decide (js_index sq pos = Some None)) as [Hpos|Hpos];
    [destruct (decide (calculateWinner sq = None)) as [Hwin|Hwin]|].
  - eapply (reachable_step st (ApplyMove pos)); [done | | done].
    by exists sq.
  - rewrite (handleClick_blocked st sq pos) in Hclick by auto.
    by simplify_eq.
  - rewrite (handleClick_blocked st sq pos) in Hclick by auto.
    by simplify_eq.
Qed.

Lemma reachable_clicks (ps : list Z) (st st' : GameState) :
  reachable st → run (ApplyMove <$> ps) st = Some st' → reachable st'.
Proof.
  revert st. induction ps as [|pos ps IH]; intros st Hreach Hrun; simpl in *.
  - by simplify_eq.
  - destruct (Slice.handleClick st pos) as [st1|] eqn:Hclick; [|done].
    simpl in Hrun. eapply IH; [|done]. by eapply reachable_click.
Qed.

Lemma reachable_xWonState : reachable xWonState.
Proof.
  apply (reachable_clicks [0; 3; 1; 4; 2] Slice.initialState);
    [constructor | reflexivity].
Qed.

(** C6.  In every state reached from the initial state by moves at legal
    positions, jumps to indices of the history, resets and new rounds, the
    history is not empty and its first record is the board of nine empty
    squares with no position. *)
Theorem history_starts_with_empty_board (st : GameState) :
  reachable st →
  history st ≠ []
  ∧ js_index (history st) 0 = Some initialRecord
  ∧ initialRecord = {| squares := replicate 9 None; position := None |}.
Proof.
  intros (H0 & _)%reachable_wellFormed. split_and!; [|done..].
  by destruct (history st).
Qed.

Lemma history_starts_with_empty_board_witness :
  history xWonState ≠ []
  ∧ js_index (history xWonState) 0 = Some initialRecord
  ∧ initialRecord = {| squares := replicate 9 None; position := None |}.
Proof.
  apply (history_starts_with_empty_board xWonState).
  apply (reachable_clicks [0; 3; 1; 4; 2] Slice.initialState);
    [constructor | reflexivity].
Defined.

(** C7, as the program has it.  In a round that X starts ([xStartsFirst]
    true), the records at the odd indices 1, 3, 5, 7, 9 of the history were
    produced by X and the records at the even indices 2, 4, 6, 8 by O: each
    holds that mark in the square of its position, and the move list labels
    it with that player.  The record at index 0 is the initial one and has
    no position. *)
Theorem moves_by_parity_x_first (st : GameState) (k : nat) (r : MoveHistory) :
  reachable st → xStartsFirst st = true → history st !! k = Some r →
  (Nat.odd k = true →
     placedMark r = Some (Some X) ∧ movePlayer true (Z.of_nat k) = X)
  ∧ (k ≠ 0%nat → Nat.even k = true →
     placedMark r = Some (Some O) ∧ movePlayer true (Z.of_nat k) = O)
  ∧ (k = 0%nat → r = initialRecord ∧ placedMark r = None).
Proof.
  intros (H0 & _ & Hmarks)%reachable_wellFormed Hflag Hr.
  rewrite Hflag in Hmarks.
  assert (Hlabel : movePlayer true (Z.of_nat k)
                   = if Nat.odd k then X else O).
  { unfold movePlayer. rewrite Z.rem_mod_nonneg by lia.
    destruct (Nat.odd k) eqn:Ho.
    - apply Nat.odd_spec in Ho as [m ->].
      rewrite bool_decide_eq_true_2; [done|].
      Z.div_mod_to_equations; lia.
    - rewrite <- Nat.negb_even in Ho. apply negb_false_iff in Ho.
      apply Nat.even_spec in Ho as [m ->].
      rewrite bool_decide_eq_false_2; [done|].
      Z.div_mod_to_equations; lia. }
  split_and!.
  - intros Ho. rewrite Ho in Hlabel. rewrite <- Hlabel at 1.
    split; [|done]. apply Hmarks; [|done]. destruct k; [done | lia].
  - intros Hk He. rewrite <- Nat.negb_even, He in Hlabel. simpl in Hlabel.
    rewrite <- Hlabel at 1. split; [|done]. apply Hmarks; [lia | done].
  - intros ->. rewrite H0 in Hr. by simplify_eq.
Qed.

Lemma moves_by_parity_x_first_witness :
  placedMark {| squares := [Some X; None; None; Some O; None; None; None;
                            None; None];
                position := Some 3 |} = Some (Some O)
  ∧ movePlayer true (Z.of_nat 2) = O.
Proof.
  destruct (moves_by_parity_x_first xWonState 2
              {| squares := [Some X; None; None; Some O; None; None; None;
                             None; None];
                 position := Some 3 |}) as (_ & H & _).
  - apply (reachable_clicks [0; 3; 1; 4; 2] Slice.initialState);
      [constructor | reflexivity].
  - reflexivity.
  - reflexivity.
  - apply H; [discriminate | reflexivity].
Defined.

(** C7 as stated fails: in the first round, which X starts, the record at
    index 1 was produced by X. *)
Lemma moves_by_parity_counterexample :
  ¬ (∀ (st : GameState) (k : nat) (r : MoveHistory),
       reachable st → xStartsFirst st = true → history st !! k = Some r →
       (k ∈ [1; 3; 5; 7; 9]%nat → placedMark r = Some (Some O))
       ∧ (k ∈ [2; 4; 6; 8]%nat → placedMark r = Some (Some X))).
Proof.
  intros H.
  destruct (H xWonState 1%nat
              {| squares := [Some X; None; None; None; None; None; None;
                             None; None];
                 position := Some 0 |}
              reachable_xWonState eq_refl eq_refl) as [Hodd _].
  specialize (Hodd ltac:(left)). vm_compute in Hodd. discriminate.
Qed.

(** ** Two rounds played through *)

(** The moves 0, 3, 1, 4, 2 complete the top row for X; "Play Again" then
    counts the win, lets O start and clears the history. *)
Example round_won_by_X :
  Hooks.winner xWonState = Some (Some X)
  ∧ Slice.playAgainClick xWonState =
      Some {| history := [initialRecord]; currentMove := 0;
              wins := {| wins_X := 1; wins_O := 0 |};
              xStartsFirst := false |}.
Proof. split; reflexivity. Qed.

(** Nine moves without a complete line: no winner at [currentMove = 9], and
    "Play Again" leaves the tallies and the starting player as they are. *)
Example round_drawn :
  ∃ st,
    run (ApplyMove <$> [0; 1; 2; 4; 3; 5; 7; 6; 8]) Slice.initialState
      = Some st
    ∧ currentMove st = 9
    ∧ Hooks.winner st = Some None
    ∧ Slice.playAgainClick st = Some Slice.initialState.
Proof. eexists. split_and!; reflexivity. Qed.

(** Without the precondition of the jump the first record is not safe: a
    move after a jump to -1 replaces the whole history. *)
Example jump_out_of_range_then_makeMove :
  history (Slice.makeMove (Slice.jumpToMove Slice.initialState (-1))
             (replicate 9 (Some O)) 4)
  = [ {| squares := replicate 9 (Some O); position := Some 4 |} ].
Proof. reflexivity. Qed.

(** ** Descriptions of the squares *)

(** X1.  [getPositionDescription] numbers rows and columns from 1: for the
    squares 0 to 8 the row and the column are between 1 and 3 and give the
    square back as [3 * (row - 1) + (col - 1)], and different squares have
    different descriptions.  For positions that are safe integers, row and
    column together determine the position. *)
Theorem getPositionDescription_squares (pos : Z) :
  (∀ pos', safeInteger pos → safeInteger pos' →
           positionRow pos = positionRow pos' →
           positionCol pos = positionCol pos' → pos = pos')
  ∧ (0 ≤ pos ≤ 8 →
     1 ≤ positionRow pos ≤ 3 ∧ 1 ≤ positionCol pos ≤ 3
     ∧ pos = 3 * (positionRow pos - 1) + (positionCol pos - 1)
     ∧ getPositionDescription pos =
         "(" +:+ js_string_of_Z (pos / 3 + 1) +:+ ","
         +:+ js_string_of_Z (pos `mod` 3 + 1) +:+ ")"
     ∧ ∀ pos', 0 ≤ pos' ≤ 8 →
         getPositionDescription pos = getPositionDescription pos' →
         pos = pos').
Proof.
  split.
  - unfold positionRow, positionCol. intros pos' _ _ Hrow Hcol.
    Z.to_euclidean_division_equations. lia.
  - intros Hpos.
    assert (Hcases : pos = 0 ∨ pos = 1 ∨ pos = 2 ∨ pos = 3 ∨ pos = 4
                     ∨ pos = 5 ∨ pos = 6 ∨ pos = 7 ∨ pos = 8) by lia.
    split_and!.
    + unfold positionRow. Z.to_euclidean_division_equations. lia.
    + unfold positionRow. Z.to_euclidean_division_equations. lia.
    + unfold positionCol. Z.to_euclidean_division_equations. lia.
    + unfold positionCol. Z.to_euclidean_division_equations. lia.
    + unfold positionRow, positionCol.
      Z.to_euclidean_division_equations. lia.
    + unfold getPositionDescription, positionRow, positionCol.
      by rewrite Z.rem_mod_nonneg by lia.
    + intros pos' Hpos' Hdesc.
      assert (Hcases' : pos' = 0 ∨ pos' = 1 ∨ pos' = 2 ∨ pos' = 3 ∨ pos' = 4
                        ∨ pos' = 5 ∨ pos' = 6 ∨ pos' = 7 ∨ pos' = 8) by lia.
      destruct_or!; subst; first [reflexivity | by vm_compute in Hdesc].
Qed.

Lemma getPositionDescription_squares_witness :
  getPositionDescription 5 = "(2,3)"
  ∧ 1 ≤ positionRow 5 ≤ 3 ∧ 1 ≤ positionCol 5 ≤ 3
  ∧ 5 = 3 * (positionRow 5 - 1) + (positionCol 5 - 1)
  ∧ (positionRow 5 = positionRow 5 → positionCol 5 = positionCol 5 → 5 = 5).
Proof.
  destruct (getPositionDescription_squares 5) as [Hinj H].
  destruct H as (Hrow & Hcol & Hpos & Hdesc & _); [lia|].
  split; [by rewrite Hdesc|]. split; [exact Hrow|]. split; [exact Hcol|].
  split; [exact Hpos|].
  apply Hinj; vm_compute; split; reflexivity.
Defined.

(** ** [makeMove] on any state *)

Lemma js_slice0_prefix {A : Type} (arr : list A) (stop : Z) :
  js_slice0 arr stop `prefix_of` arr.
Proof. unfold js_slice0. case_decide; apply prefix_take. Qed.

Lemma js_index_snoc {A : Type} (arr : list A) (v : A) :
  js_index (arr ++ [v]) (Z.of_nat (length (arr ++ [v])) - 1) = Some v.
Proof.
  unfold js_index. rewrite length_app. simpl. case_decide; [|lia].
  replace (Z.to_nat (Z.of_nat (length arr + 1) - 1)) with (length arr) by lia.
  by rewrite list_lookup_middle.
Qed.

Lemma selectCurrentSquares_makeMove (st : GameState)
  (sq : list SquareValue) (pos : Z) :
  Slice.selectCurrentSquares (Slice.makeMove st sq pos) = Some sq.
Proof.
  unfold Slice.selectCurrentSquares, Slice.makeMove. simpl.
  by rewrite js_index_snoc.
Qed.

(** X2.  Whatever the state, also one whose [currentMove] is no index of
    the history, [makeMove] (and [handlePlay]) leaves a history made of a
    prefix of the old one followed by the new record, which [currentMove]
    then points to: the history is not empty, at most one record longer
    than before, and the board of the payload is the current board. *)
Theorem makeMove_new_board_is_current (st : GameState)
  (sq : list SquareValue) (pos : Z) :
  ∃ kept,
    history (Slice.makeMove st sq pos) =
      kept ++ [ {| squares := sq; position := Some pos |} ]
    ∧ kept `prefix_of` history st
    ∧ currentMove (Slice.makeMove st sq pos) = Z.of_nat (length kept)
    ∧ Slice.selectCurrentSquares (Slice.makeMove st sq pos) = Some sq
    ∧ Hooks.currentSquares (Hooks.handlePlay st sq pos) = Some sq
    ∧ wins (Slice.makeMove st sq pos) = wins st
    ∧ xStartsFirst (Slice.makeMove st sq pos) = xStartsFirst st.
Proof.
  exists (js_slice0 (history st) (currentMove st + 1)).
  pose proof (selectCurrentSquares_makeMove st sq pos) as Hcur.
  split_and!; try done.
  - apply js_slice0_prefix.
  - simpl. rewrite length_app. simpl. lia.
Qed.

(** ** Turns *)

Lemma rem2_succ (n : Z) :
  0 ≤ n →
  Z.rem n 2 = 0 ∧ Z.rem (n + 1) 2 = 1 ∨ Z.rem n 2 = 1 ∧ Z.rem (n + 1) 2 = 0.
Proof. intros Hn. Z.to_euclidean_division_equations. lia. Qed.

(** X3.  A move passes the turn: after a click on an empty square of a
    board without winner the player to move is the other one, and the mark
    just placed is the mark of the player who was to move. *)
Theorem click_passes_the_turn (st : GameState) (sq : list SquareValue)
  (pos : Z) :
  Slice.selectCurrentSquares st = Some sq →
  js_index sq pos = Some None →
  calculateWinner sq = None →
  ∃ st' sq',
    Slice.handleClick st pos = Some st'
    ∧ Slice.selectCurrentSquares st' = Some sq'
    ∧ js_index sq' pos = Some (Some (markOf (Slice.selectXIsNext st)))
    ∧ markOf (Slice.selectXIsNext st')
      = opponent (markOf (Slice.selectXIsNext st))
    ∧ Hooks.xIsNext st' = negb (Hooks.xIsNext st).
Proof.
  intros Hsq Hpos Hwin.
  pose proof (selectCurrentSquares_range _ _ Hsq) as Hcm.
  pose proof (js_index_Some_range _ _ _ Hpos) as Hp.
  rewrite (handleClick_legal _ _ _ Hsq Hpos Hwin).
  eexists _, _. split; [done|].
  split; [apply selectCurrentSquares_makeMove|].
  split; [by apply js_index_assign_eq|].
  rewrite makeMove_in_range by done.
  unfold Hooks.xIsNext, Slice.selectXIsNext. simpl.
  destruct (rem2_succ (currentMove st)) as [[-> ->]|[-> ->]]; [lia|..];
    by destruct (xStartsFirst st).
Qed.

Lemma click_passes_the_turn_witness :
  ∃ st' sq',
    Slice.handleClick replayState 8 = Some st'
    ∧ Slice.selectCurrentSquares st' = Some sq'
    ∧ js_index sq' 8 = Some (Some (markOf (Slice.selectXIsNext replayState)))
    ∧ markOf (Slice.selectXIsNext st')
      = opponent (markOf (Slice.selectXIsNext replayState))
    ∧ Hooks.xIsNext st' = negb (Hooks.xIsNext replayState).
Proof.
  apply (click_passes_the_turn replayState
           [Some X; None; None; Some O; None; None; None; None; None] 8);
    reflexivity.
Defined.

(** X4.  The loser starts the next round: after [playAgain] with a winner
    the player to move is the other player, whatever the state before; after
    [playAgain] without winner the player who started the last round starts
    again. *)
Theorem playAgain_loser_starts (st : GameState) :
  (∀ w, markOf (Slice.selectXIsNext (Slice.playAgain st (Some w)))
        = opponent w)
  ∧ markOf (Slice.selectXIsNext (Slice.playAgain st None))
    = markOf (xStartsFirst st)
  ∧ (∀ st' w, Hooks.playAgain st = Some st' →
              Hooks.winner st = Some (Some w) →
              markOf (Hooks.xIsNext st') = opponent w).
Proof.
  split_and!.
  - by intros [].
  - unfold Slice.selectXIsNext. simpl. by destruct (xStartsFirst st).
  - intros st' w Hplay Hw. rewrite (playAgain_playAgain _ _ Hw) in Hplay.
    simplify_eq. by destruct w.
Qed.

Lemma playAgain_loser_starts_witness :
  ∃ st', Hooks.playAgain xWonState = Some st'
         ∧ markOf (Hooks.xIsNext st') = opponent X.
Proof.
  eexists. split; [reflexivity|].
  destruct (playAgain_loser_starts xWonState) as (_ & _ & H).
  apply H; reflexivity.
Defined.

(** ** The boards of a round *)

Lemma countMarks_replicate_None (n : nat) :
  countMarks (replicate n None) = 0%nat.
Proof. induction n as [|n IH]; simpl; [done | exact IH]. Qed.

Lemma countMarks_le_length (sq : list SquareValue) :
  (countMarks sq ≤ length sq)%nat.
Proof. induction sq as [|[m|] sq IH]; simpl; lia. Qed.

Lemma countMarks_insert (sq : list SquareValue) (i : nat) (m : Player) :
  sq !! i = Some None →
  countMarks (<[i := Some m]> sq) = S (countMarks sq).
Proof.
  revert i. induction sq as [|v sq IH]; intros [|i] Hi; simpl in *;
    try done.
  - by simplify_eq.
  - rewrite (IH i Hi). lia.
Qed.

Lemma countMarks_full (sq : list SquareValue) (i : nat) :
  countMarks sq = length sq → sq !! i ≠ Some None.
Proof.
  revert i. induction sq as [|[m|] sq IH]; intros i Hfull; simpl in *.
  - done.
  - destruct i as [|i]; simpl; [done|]. apply IH. lia.
  - pose proof (countMarks_le_length sq). lia.
Qed.

Lemma countMarks_not_full (sq : list SquareValue) :
  (countMarks sq < length sq)%nat → ∃ i, sq !! i = Some None.
Proof.
  induction sq as [|[m|] sq IH]; simpl; intros Hlt.
  - lia.
  - destruct IH as [i Hi]; [lia|]. by exists (S i).
  - by exists 0%nat.
Qed.

Lemma roundInvariant_fresh_round (w : Wins) (flag : bool) :
  roundInvariant {| history := [initialRecord]; currentMove := 0;
                    wins := w; xStartsFirst := flag |}.
Proof.
  split; simpl.
  - intros [|k] r Hr; [|done]. simpl in Hr. simplify_eq. done.
  - intros [|k] r r' _ Hr'; done.
Qed.

Lemma roundInvariant_makeMove (st : GameState) (sq : list SquareValue)
  (pos : Z) :
  wellFormed st → roundInvariant st →
  Slice.selectCurrentSquares st = Some sq →
  js_index sq pos = Some None →
  calculateWinner sq = None →
  roundInvariant (Slice.makeMove st
                    (js_assign sq pos (Some (markOf (Slice.selectXIsNext st))))
                    pos).
Proof.
  intros (_ & Hcm & _) (Hboards & Hsteps) Hsq Hpos Hwin.
  pose proof (js_index_Some_range _ _ _ Hpos) as Hp.
  rewrite makeMove_in_range by done.
  set (n := Z.to_nat (currentMove st)).
  assert (Hlen : length (take (S n) (history st)) = S n)
    by (rewrite length_take; lia).
  assert (Hcur : ∃ r, history st !! n = Some r ∧ squares r = sq).
  { unfold Slice.selectCurrentSquares, js_index in Hsq.
    case_decide; [|lia]. fold n in Hsq.
    destruct (history st !! n) as [r|]; [|done]. exists r. split; [done|].
    simpl in Hsq. by simplify_eq. }
  destruct Hcur as (rcur & Hrcur & Hsqcur).
  destruct (Hboards n rcur Hrcur) as [Hlen9 Hcount].
  rewrite Hsqcur in Hlen9, Hcount.
  assert (Hposn : sq !! Z.to_nat pos = Some None).
  { unfold js_index in Hpos. by case_decide. }
  split; simpl.
  - intros k r [[Hr _]%lookup_take_Some | [Hge Hr]]%lookup_app_Some.
    + by apply Hboards.
    + rewrite Hlen in Hge, Hr.
      apply list_lookup_singleton_Some in Hr as [Hk <-]. simpl.
      unfold js_assign. rewrite length_insert, countMarks_insert by done.
      split; [done | lia].
  - intros k r r' Hr
      [[Hr' Hlt]%lookup_take_Some | [Hge Hr']]%lookup_app_Some.
    + apply lookup_app_Some in Hr as [[Hr _]%lookup_take_Some | [Hge _]].
      * by apply Hsteps.
      * rewrite Hlen in Hge. lia.
    + rewrite Hlen in Hge, Hr'.
      apply list_lookup_singleton_Some in Hr' as [Hk <-].
      assert (k = n) as -> by lia.
      rewrite lookup_app_l in Hr by lia.
      apply lookup_take_Some in Hr as [Hr _].
      rewrite Hrcur in Hr. simplify_eq. simpl.
      split; [done|]. exists pos. split_and!; [done..|].
      rewrite markOf_movePlayer by lia. do 3 f_equal. lia.
Qed.

Lemma roundInvariant_exec (st st' : GameState) (op : Op) :
  wellFormed st → roundInvariant st →
  precondition st op → exec st op = Some st' →
  roundInvariant st'.
Proof.
  intros Hwf Hinv Hpre Hexec. destruct op as [pos|index| |w]; simpl in *.
  - destruct Hpre as (sq & Hsq & Hpos & Hwin).
    rewrite (handleClick_legal _ _ _ Hsq Hpos Hwin) in Hexec.
    simplify_eq. by apply roundInvariant_makeMove.
  - simplify_eq. exact Hinv.
  - simplify_eq. apply roundInvariant_fresh_round.
  - simplify_eq. apply roundInvariant_fresh_round.
Qed.

Lemma reachable_roundInvariant (st : GameState) :
  reachable st → roundInvariant st.
Proof.
  induction 1 as [|st op st' Hreach IH Hpre Hexec].
  - apply roundInvariant_fresh_round.
  - eapply roundInvariant_exec; [|done..].
    by apply reachable_wellFormed.
Qed.

Lemma reachable_current_record (st : GameState) :
  reachable st →
  ∃ r, history st !! Z.to_nat (currentMove st) = Some r
       ∧ Slice.selectCurrentSquares st = Some (squares r)
       ∧ length (squares r) = 9%nat
       ∧ countMarks (squares r) = Z.to_nat (currentMove st)
       ∧ 0 ≤ currentMove st ≤ 9.
Proof.
  intros Hreach.
  destruct (reachable_wellFormed _ Hreach) as (_ & Hcm & _).
  destruct (reachable_roundInvariant _ Hreach) as (Hboards & _).
  destruct (lookup_lt_is_Some_2 (history st) (Z.to_nat (currentMove st)))
    as [r Hr]; [lia|].
  destruct (Hboards _ _ Hr) as [Hlen Hcount].
  exists r. split_and!; try done.
  - unfold Slice.selectCurrentSquares, js_index.
    case_decide; [|lia]. by rewrite Hr.
  - lia.
  - pose proof (countMarks_le_length (squares r)). lia.
Qed.

(** X5.  In every reachable state the board at index [k] of the history
    has nine squares of which exactly [k] are marked; so the history has at
    most ten records and [currentMove] is between 0 and 9. *)
Theorem history_boards_bounded (st : GameState) :
  reachable st →
  (∀ (k : nat) (r : MoveHistory),
     history st !! k = Some r →
     length (squares r) = 9%nat ∧ countMarks (squares r) = k ∧ (k ≤ 9)%nat)
  ∧ (1 ≤ length (history st) ≤ 10)%nat
  ∧ 0 ≤ currentMove st ≤ 9.
Proof.
  intros Hreach.
  destruct (reachable_wellFormed _ Hreach) as (H0 & Hcm & _).
  destruct (reachable_roundInvariant _ Hreach) as (Hboards & _).
  assert (Hk : ∀ (k : nat) (r : MoveHistory),
             history st !! k = Some r →
             length (squares r) = 9%nat ∧ countMarks (squares r) = k
             ∧ (k ≤ 9)%nat).
  { intros k r Hr. destruct (Hboards k r Hr) as [Hlen Hcount].
    pose proof (countMarks_le_length (squares r)). split_and!; [done..|lia]. }
  split; [exact Hk|].
  assert (Hlen : (length (history st) ≤ 10)%nat).
  { destruct (decide (length (history st) ≤ 10)%nat) as [|Hbig]; [done|].
    destruct (lookup_lt_is_Some_2 (history st) 10) as [r Hr]; [lia|].
    destruct (Hk _ _ Hr) as (_ & _ & Hle). lia. }
  split; lia.
Qed.

Lemma history_boards_bounded_witness :
  (1 ≤ length (history xWonState) ≤ 10)%nat ∧ 0 ≤ currentMove xWonState ≤ 9.
Proof.
  destruct (history_boards_bounded xWonState) as (_ & H).
  - apply (reachable_clicks [0; 3; 1; 4; 2] Slice.initialState);
      [constructor | reflexivity].
  - exact H.
Defined.

(** X6.  In every reachable state each board of the history differs from
    the board before it in exactly one square, the square of its position:
    that square was empty and holds the mark of the player the move list
    shows for the index; every other square is as before. *)
Theorem consecutive_boards_differ_in_one_square (st : GameState)
  (k : nat) (r r' : MoveHistory) :
  reachable st →
  history st !! k = Some r → history st !! S k = Some r' →
  ∃ pos,
    position r' = Some pos
    ∧ 0 ≤ pos ≤ 8
    ∧ js_index (squares r) pos = Some None
    ∧ js_index (squares r') pos
      = Some (Some (movePlayer (xStartsFirst st) (Z.of_nat (S k))))
    ∧ ∀ j, j ≠ pos → js_index (squares r') j = js_index (squares r) j.
Proof.
  intros Hreach Hr Hr'.
  destruct (reachable_roundInvariant _ Hreach) as (Hboards & Hsteps).
  destruct (Hsteps k r r' Hr Hr') as (_ & pos & Hp & Hempty & Hsq).
  destruct (Hboards k r Hr) as [Hlen _].
  pose proof (js_index_Some_range _ _ _ Hempty) as Hrange.
  exists pos. rewrite Hsq. split_and!; [done | lia | lia | done | |].
  - by apply js_index_assign_eq.
  - intros j Hj. apply js_index_assign_ne; [lia | done].
Qed.

Lemma consecutive_boards_differ_in_one_square_witness :
  ∃ pos,
    Some 3 = Some pos
    ∧ 0 ≤ pos ≤ 8
    ∧ js_index [Some X; None; None; None; None; None; None; None; None] pos
      = Some None
    ∧ js_index [Some X; None; None; Some O; None; None; None; None; None] pos
      = Some (Some (movePlayer (xStartsFirst xWonState) (Z.of_nat 2)))
    ∧ ∀ j, j ≠ pos →
        js_index [Some X; None; None; Some O; None; None; None; None; None] j
        = js_index [Some X; None; None; None; None; None; None; None; None] j.
Proof.
  apply (consecutive_boards_differ_in_one_square xWonState 1
           {| squares := [Some X; None; None; None; None; None; None; None;
                          None];
              position := Some 0 |}
           {| squares := [Some X; None; None; Some O; None; None; None; None;
                          None];
              position := Some 3 |}).
  - apply (reachable_clicks [0; 3; 1; 4; 2] Slice.initialState);
      [constructor | reflexivity].
  - reflexivity.
  - reflexivity.
Defined.

(** ** The winner of a round *)

Lemma line_holds_insert (sq : list SquareValue) (p : nat) (mk m : Player)
  (l : nat * nat * nat) :
  (p < length sq)%nat →
  line_holds (<[p := Some mk]> sq) l m →
  line_holds sq l m ∨ m = mk.
Proof.
  intros Hp (Ha & Hb & Hc).
  assert (Hcell : ∀ a, <[p := Some mk]> sq !! a = Some (Some m) →
                       sq !! a = Some (Some m) ∨ m = mk).
  { intros a Hlook. destruct (decide (p = a)) as [->|Hne].
    - rewrite list_lookup_insert_eq in Hlook by done.
      right. by simplify_eq.
    - rewrite list_lookup_insert_ne in Hlook by done. by left. }
  destruct (Hcell _ Ha) as [Ha'|]; [|by right].
  destruct (Hcell _ Hb) as [Hb'|]; [|by right].
  destruct (Hcell _ Hc) as [Hc'|]; [|by right].
  by left.
Qed.

Lemma calculateWinner_line (sq : list SquareValue) (m : Player) :
  calculateWinner sq = Some m → ∃ l, l ∈ lines ∧ line_holds sq l m.
Proof.
  intros (before & l & after & Heq & _ & Hl)%scan_lines_some.
  exists l. split; [|done]. rewrite Heq. apply elem_of_app. right. left.
Qed.

Lemma calculateWinner_no_line (sq : list SquareValue)
  (l : nat * nat * nat) (m : Player) :
  calculateWinner sq = None → l ∈ lines → ¬ line_holds sq l m.
Proof.
  intros Hnone Hin Hl. by apply (scan_lines_complete sq lines l m).
Qed.

(** X7.  In every reachable state, a board of the history that has a winner
    is the last record of the history; its winner is the player who made
    the move that produced it (the player the move list shows for its
    index), and every complete line of it holds the winner's mark, so that
    the order in which [calculateWinner] scans the lines does not matter. *)
Theorem winner_is_last_mover (st : GameState) (k : nat) (r : MoveHistory)
  (m : Player) :
  reachable st →
  history st !! k = Some r →
  calculateWinner (squares r) = Some m →
  m = movePlayer (xStartsFirst st) (Z.of_nat k)
  ∧ length (history st) = S k
  ∧ (0 < k)%nat
  ∧ ∀ l m', l ∈ lines → line_holds (squares r) l m' → m' = m.
Proof.
  intros Hreach Hr Hwin.
  destruct (reachable_wellFormed _ Hreach) as (H0 & _ & _).
  destruct (reachable_roundInvariant _ Hreach) as (Hboards & Hsteps).
  assert (Hlast : length (history st) = S k).
  { pose proof (lookup_lt_Some _ _ _ Hr) as Hlt.
    destruct (decide (length (history st) = S k)) as [|Hne]; [done|].
    destruct (lookup_lt_is_Some_2 (history st) (S k)) as [r' Hr']; [lia|].
    destruct (Hsteps k r r' Hr Hr') as [Hnone _]. congruence. }
  destruct k as [|j].
  { rewrite H0 in Hr. injection Hr as <-. by vm_compute in Hwin. }
  destruct (lookup_lt_is_Some_2 (history st) j) as [r0 Hr0];
    [pose proof (lookup_lt_Some _ _ _ Hr); lia|].
  destruct (Hsteps j r0 r Hr0 Hr) as (Hnone & pos & _ & Hempty & Hsq).
  pose proof (js_index_Some_range _ _ _ Hempty) as Hrange.
  assert (Hall : ∀ l m', l ∈ lines → line_holds (squares r) l m' →
                   m' = movePlayer (xStartsFirst st) (Z.of_nat (S j))).
  { intros l m' Hin Hl. rewrite Hsq in Hl. unfold js_assign in Hl.
    apply line_holds_insert in Hl; [|lia].
    destruct Hl as [Hold|Heq]; [|exact Heq].
    by destruct (calculateWinner_no_line _ l m' Hnone Hin). }
  destruct (calculateWinner_line _ _ Hwin) as (l & Hin & Hl).
  pose proof (Hall l m Hin Hl) as Hm.
  split_and!; [done | done | lia |].
  intros l' m' Hin' Hl'. rewrite Hm. by eapply Hall.
Qed.

Lemma winner_is_last_mover_witness :
  X = movePlayer (xStartsFirst xWonState) (Z.of_nat 5)
  ∧ length (history xWonState) = 6%nat.
Proof.
  destruct (winner_is_last_mover xWonState 5
              {| squares := [Some X; Some X; Some X; Some O; Some O; None;
                             None; None; None];
                 position := Some 2 |} X) as (Hm & Hlen & _).
  - apply (reachable_clicks [0; 3; 1; 4; 2] Slice.initialState);
      [constructor | reflexivity].
  - reflexivity.
  - reflexivity.
  - split; [exact Hm | exact Hlen].
Defined.

(** ** The status line *)

(** X8.  In every reachable state the status line is rendered, and it says
    whether a move is possible: with "Winner" or "Draw" no click on any
    square changes the state (at "Draw" the board has no empty square and no
    winner); with "Next player" the board has an empty square, and a click
    on it advances [currentMove] by one and places the announced player's
    mark. *)
Theorem status_tells_whether_a_move_is_possible (st : GameState) :
  reachable st →
  ∃ sq s,
    Slice.selectCurrentSquares st = Some sq
    ∧ status st = Some s
    ∧ match s with
      | StatusWinner w =>
          calculateWinner sq = Some w
          ∧ ∀ i, Slice.handleClick st i = Some st
      | StatusDraw =>
          calculateWinner sq = None
          ∧ (∀ i, js_index sq i ≠ Some None)
          ∧ ∀ i, Slice.handleClick st i = Some st
      | StatusNext p =>
          calculateWinner sq = None
          ∧ ∃ i st' sq',
              0 ≤ i ≤ 8
              ∧ js_index sq i = Some None
              ∧ Slice.handleClick st i = Some st'
              ∧ currentMove st' = currentMove st + 1
              ∧ Slice.selectCurrentSquares st' = Some sq'
              ∧ js_index sq' i = Some (Some p)
      end.
Proof.
  intros Hreach.
  destruct (reachable_current_record _ Hreach)
    as (r & Hr & Hsq & Hlen & Hcount & Hcm).
  exists (squares r). unfold status. rewrite Hsq. simpl.
  destruct (calculateWinner (squares r)) as [w|] eqn:Hwin.
  - exists (StatusWinner w). split; [done|]. split; [done|].
    split; [done|].
    intros i. apply (handleClick_blocked st (squares r)); [done|].
    right. congruence.
  - case_bool_decide as H9.
    + assert (Hfull : ∀ i, js_index (squares r) i ≠ Some None).
      { intros i. unfold js_index. case_decide; [|done].
        apply countMarks_full. lia. }
      exists StatusDraw. split; [done|]. split; [done|].
      split; [done|]. split; [exact Hfull|].
      intros i. apply (handleClick_blocked st (squares r)); [done|].
      by left.
    + destruct (countMarks_not_full (squares r)) as [n Hn]; [lia|].
      pose proof (lookup_lt_Some _ _ _ Hn) as Hn9.
      assert (Hi : js_index (squares r) (Z.of_nat n) = Some None).
      { unfold js_index. case_decide; [|lia]. by rewrite Nat2Z.id. }
      destruct (reachable_wellFormed _ Hreach) as (_ & Hrange & _).
      exists (StatusNext (markOf (Slice.selectXIsNext st))).
      split; [done|]. split; [done|]. split; [done|].
      exists (Z.of_nat n). eexists _, _.
      rewrite (handleClick_legal _ _ _ Hsq Hi Hwin).
      split; [lia|]. split; [done|]. split; [done|].
      split; [by rewrite makeMove_in_range|].
      split; [apply selectCurrentSquares_makeMove|].
      apply js_index_assign_eq. lia.
Qed.

Lemma status_tells_whether_a_move_is_possible_witness :
  ∃ sq s,
    Slice.selectCurrentSquares xWonState = Some sq
    ∧ status xWonState = Some s
    ∧ match s with
      | StatusWinner w =>
          calculateWinner sq = Some w
          ∧ ∀ i, Slice.handleClick xWonState i = Some xWonState
      | StatusDraw =>
          calculateWinner sq = None
          ∧ (∀ i, js_index sq i ≠ Some None)
          ∧ ∀ i, Slice.handleClick xWonState i = Some xWonState
      | StatusNext p =>
          calculateWinner sq = None
          ∧ ∃ i st' sq',
              0 ≤ i ≤ 8
              ∧ js_index sq i = Some None
              ∧ Slice.handleClick xWonState i = Some st'
              ∧ currentMove st' = currentMove xWonState + 1
              ∧ Slice.selectCurrentSquares st' = Some sq'
              ∧ js_index sq' i = Some (Some p)
      end.
Proof.
  apply (status_tells_whether_a_move_is_possible xWonState).
  apply (reachable_clicks [0; 3; 1; 4; 2] Slice.initialState);
    [constructor | reflexivity].
Defined.

(** ** The move list *)

Lemma moves_lookup (st : GameState) (n : nat) (e : MoveEntry) :
  moves st !! n = Some e →
  ∃ r, history st !! n = Some r ∧ e = moveEntry st n r.
Proof.
  unfold moves. rewrite list_lookup_imap.
  destruct (history st !! n) as [r|]; [|done].
  intros [= <-]. by exists r.
Qed.

Lemma moveEntry_jump (st : GameState) (n : nat) (r : MoveHistory) :
  entryJump (moveEntry st n r) = Z.of_nat n
  ∧ entryKey (moveEntry st n r) = Z.of_nat n
  ∧ entryCurrent (moveEntry st n r)
    = bool_decide (Z.of_nat n = currentMove st).
Proof. unfold moveEntry. by case_bool_decide. Qed.

(** X9.  The move list has one entry per record of the history, in order;
    the button of entry [n] jumps to [n], which is an index of the history,
    so that no button breaks the precondition of the jump; the entry is
    highlighted exactly when [n] is [currentMove], and only entry 0 reads
    "Reset Game".  This holds in every state. *)
Theorem moves_offer_valid_jumps (st : GameState) :
  length (moves st) = length (history st)
  ∧ ∀ (n : nat) (e : MoveEntry),
      moves st !! n = Some e →
      entryJump e = Z.of_nat n
      ∧ entryKey e = Z.of_nat n
      ∧ 0 ≤ entryJump e < Z.of_nat (length (history st))
      ∧ history (Slice.jumpToMove st (entryJump e)) = history st
      ∧ is_Some (Slice.selectCurrentSquares
                   (Slice.jumpToMove st (entryJump e)))
      ∧ (entryCurrent e = true ↔ Z.of_nat n = currentMove st)
      ∧ (entryLabel e = ResetGameLabel ↔ n = 0%nat).
Proof.
  split; [apply length_imap|].
  intros n e (r & Hr & ->)%moves_lookup.
  destruct (moveEntry_jump st n r) as (Hjump & Hkey & Hcur).
  pose proof (lookup_lt_Some _ _ _ Hr) as Hlt.
  rewrite Hjump, Hkey, Hcur.
  split; [done|]. split; [done|]. split; [lia|]. split; [done|].
  split.
  { unfold Slice.selectCurrentSquares. simpl.
    rewrite fmap_is_Some. apply js_index_in_range. lia. }
  split; [apply bool_decide_eq_true|].
  unfold moveEntry. destruct (decide (Z.of_nat n = 0)) as [Hz|Hz].
  - rewrite bool_decide_eq_true_2 by done. simpl.
    split; [intros _; lia | done].
  - rewrite bool_decide_eq_false_2 by done. simpl.
    split; [done | intros ->; done].
Qed.

Lemma moves_offer_valid_jumps_witness :
  entryJump (moveEntry xWonState 3
               {| squares := [Some X; Some X; None; Some O; None; None;
                              None; None; None];
                  position := Some 1 |}) = 3
  ∧ length (moves xWonState) = 6%nat.
Proof.
  destruct (moves_offer_valid_jumps xWonState) as [Hlen H].
  destruct (H 3%nat
              (moveEntry xWonState 3
                 {| squares := [Some X; Some X; None; Some O; None; None;
                                None; None; None];
                    position := Some 1 |})) as (Hjump & _).
  - reflexivity.
  - split; [exact Hjump | exact Hlen].
Defined.

(** X10.  In every reachable state the move list tells the truth: the
    entry of an index [n] other than 0 names a player and the description
    of a square between 0 and 8, the square recorded as the position of
    board [n], and board [n] holds that player's mark in that square. *)
Theorem moves_labels_are_true (st : GameState) (n : nat) (e : MoveEntry) :
  reachable st → n ≠ 0%nat → moves st !! n = Some e →
  ∃ r pos p,
    history st !! n = Some r
    ∧ position r = Some pos
    ∧ 0 ≤ pos ≤ 8
    ∧ entryLabel e = PlacedLabel p (getPositionDescription pos)
    ∧ js_index (squares r) pos = Some (Some p).
Proof.
  intros Hreach Hn (r & Hr & ->)%moves_lookup.
  destruct (reachable_wellFormed _ Hreach) as (_ & _ & Hmarks).
  destruct (reachable_roundInvariant _ Hreach) as (Hboards & _).
  destruct (Hboards n r Hr) as [Hlen _].
  specialize (Hmarks n r ltac:(lia) Hr). unfold placedMark in Hmarks.
  destruct (position r) as [pos|] eqn:Hpos; [|done]. simpl in Hmarks.
  pose proof (js_index_Some_range _ _ _ Hmarks) as Hrange.
  exists r, pos, (movePlayer (xStartsFirst st) (Z.of_nat n)).
  split; [done|]. split; [done|]. split; [lia|]. split; [|done].
  unfold moveEntry. rewrite bool_decide_eq_false_2 by lia. simpl.
  by rewrite Hpos.
Qed.

Lemma moves_labels_are_true_witness :
  ∃ r pos p,
    history xWonState !! 4%nat = Some r
    ∧ position r = Some pos
    ∧ 0 ≤ pos ≤ 8
    ∧ entryLabel
        (moveEntry xWonState 4
           {| squares := [Some X; Some X; None; Some O; Some O; None;
                          None; None; None];
              position := Some 4 |})
      = PlacedLabel p (getPositionDescription pos)
    ∧ js_index (squares r) pos = Some (Some p).
Proof.
  apply (moves_labels_are_true xWonState 4).
  - apply (reachable_clicks [0; 3; 1; 4; 2] Slice.initialState);
      [constructor | reflexivity].
  - discriminate.
  - reflexivity.
Defined.

(** ** The rendered view *)

Lemma viewStep_reachable (st st' : GameState) :
  reachable st → viewStep st st' → reachable st'.
Proof.
  intros Hreach [i st1 _ Hclick | e _ He | st1 Hplay].
  - by eapply reachable_click.
  - apply list_elem_of_lookup in He as [n (r & Hr & ->)%moves_lookup].
    destruct (moveEntry_jump st n r) as (-> & _).
    apply (reachable_step st (JumpTo (Z.of_nat n))); [done | | done].
    simpl. pose proof (lookup_lt_Some _ _ _ Hr). lia.
  - unfold Slice.playAgainClick in Hplay.
    destruct (Slice.selectCurrentSquares st) as [sq|]; [|done].
    simpl in Hplay. simplify_eq.
    by apply (reachable_step st (StartNextRound (calculateWinner sq))).
Qed.

Lemma viewReachable_reachable (st : GameState) :
  viewReachable st → reachable st.
Proof.
  induction 1 as [|st st' _ IH Hstep]; [constructor|].
  by eapply viewStep_reachable.
Qed.

(** X11.  The view never throws.  In every state reached from the initial
    state by clicks on the nine squares, on the buttons of the move list
    and on "Play Again", the current board can be read (in both
    components), the status line is rendered, and the handler of every
    square and of "Play Again" returns a state. *)
Theorem view_never_throws (st : GameState) :
  viewReachable st →
  reachable st
  ∧ is_Some (Slice.selectCurrentSquares st)
  ∧ is_Some (Hooks.currentSquares st)
  ∧ is_Some (status st)
  ∧ (∀ i, is_Some (Slice.handleClick st i))
  ∧ (∀ i, is_Some (Hooks.handleCLick st i))
  ∧ is_Some (Slice.playAgainClick st)
  ∧ is_Some (Hooks.playAgain st).
Proof.
  intros Hreach%viewReachable_reachable.
  destruct (reachable_current_record _ Hreach) as (r & _ & Hsq & _).
  assert (Hclick : ∀ i, is_Some (Slice.handleClick st i)).
  { intros i. unfold Slice.handleClick. rewrite Hsq. simpl.
    by destruct (_ || _). }
  assert (Hplay : is_Some (Slice.playAgainClick st)).
  { unfold Slice.playAgainClick. by rewrite Hsq. }
  split; [done|]. split; [by rewrite Hsq|].
  split; [change (is_Some (Slice.selectCurrentSquares st)); by rewrite Hsq|].
  split; [unfold status; by rewrite Hsq|].
  split; [done|]. split; [done|]. split; [done|].
  by rewrite playAgain_playAgainClick.
Qed.

Lemma view_never_throws_witness :
  is_Some (status secondRoundState)
  ∧ is_Some (Slice.playAgainClick secondRoundState).
Proof.
  destruct (view_never_throws secondRoundState)
    as (_ & _ & _ & Hstatus & _ & _ & Hplay & _).
  - apply (viewReachable_step xWonState); [|by apply view_playAgain].
    apply (viewReachable_step
             (default Slice.initialState
                (run (ApplyMove <$> [0; 3; 1; 4]) Slice.initialState)));
      [|by apply (view_square _ 2)].
    apply (viewReachable_step
             (default Slice.initialState
                (run (ApplyMove <$> [0; 3; 1]) Slice.initialState)));
      [|by apply (view_square _ 4)].
    apply (viewReachable_step
             (default Slice.initialState
                (run (ApplyMove <$> [0; 3]) Slice.initialState)));
      [|by apply (view_square _ 1)].
    apply (viewReachable_step
             (default Slice.initialState
                (run (ApplyMove <$> [0]) Slice.initialState)));
      [|by apply (view_square _ 3)].
    apply (viewReachable_step Slice.initialState);
      [constructor | by apply (view_square _ 0)].
  - split; [exact Hstatus | exact Hplay].
Defined.

(** ** The score *)





(** ** "Reset Game" *)

Lemma js_index_emptyBoard (i : Z) :
  0 ≤ i ≤ 8 → js_index emptyBoard i = Some None.
Proof.
  intros Hi. unfold js_index, emptyBoard. case_decide; [|lia].
  apply lookup_replicate_2. lia.
Qed.

(** X13.  The first button of the move list, "Reset Game", jumps to index
    0 and keeps the history; yet in every reachable state it shows the
    empty board, and a click on any of the nine squares after it gives the
    very state that the same click gives after [resetGame]: the kept
    records are dropped by the move.  Both components behave so. *)
Theorem reset_entry_restarts_the_round (st : GameState) (i : Z) :
  reachable st → 0 ≤ i ≤ 8 →
  history (Slice.jumpToMove st 0) = history st
  ∧ Slice.selectCurrentSquares (Slice.jumpToMove st 0) = Some emptyBoard
  ∧ Slice.handleClick (Slice.jumpToMove st 0) i
    = Slice.handleClick (Slice.resetGame st) i
  ∧ Hooks.handleCLick (Hooks.jumpTo st 0) i
    = Hooks.handleCLick (Hooks.resetGame st) i
  ∧ Slice.handleClick (Slice.jumpToMove st 0) i
    = Some {| history :=
                [ initialRecord;
                  {| squares :=
                       js_assign emptyBoard i
                         (Some (markOf (xStartsFirst st)));
                     position := Some i |} ];
              currentMove := 1;
              wins := wins st; xStartsFirst := xStartsFirst st |}.
Proof.
  intros Hreach Hi.
  destruct (reachable_wellFormed _ Hreach) as (H0 & Hcm & _).
  assert (Hjump : Slice.selectCurrentSquares (Slice.jumpToMove st 0)
                  = Some emptyBoard).
  { unfold Slice.selectCurrentSquares. simpl.
    assert (js_index (history st) 0 = history st !! 0%nat) as ->
      by (unfold js_index; case_decide; [done | lia]).
    by rewrite H0. }
  assert (Hnext : ∀ s, currentMove s = 0 →
            markOf (Slice.selectXIsNext s) = markOf (xStartsFirst s)).
  { intros s Hs. unfold Slice.selectXIsNext. rewrite Hs.
    by destruct (xStartsFirst s). }
  assert (Hleft : Slice.handleClick (Slice.jumpToMove st 0) i
            = Some {| history :=
                        [ initialRecord;
                          {| squares :=
                               js_assign emptyBoard i
                                 (Some (markOf (xStartsFirst st)));
                             position := Some i |} ];
                      currentMove := 1;
                      wins := wins st; xStartsFirst := xStartsFirst st |}).
  { rewrite (handleClick_legal _ emptyBoard i Hjump
               (js_index_emptyBoard i Hi) eq_refl).
    rewrite makeMove_in_range by (simpl; lia). simpl.
    rewrite Hnext by done. simpl.
    destruct (history st) as [|r0 rest]; [done|].
    simpl in H0. by simplify_eq. }
  assert (Hright : Slice.handleClick (Slice.resetGame st) i
            = Slice.handleClick (Slice.jumpToMove st 0) i).
  { rewrite Hleft.
    rewrite (handleClick_legal (Slice.resetGame st) emptyBoard i eq_refl
               (js_index_emptyBoard i Hi) eq_refl).
    rewrite makeMove_in_range by (simpl; lia). simpl.
    by rewrite Hnext. }
  split; [done|]. split; [done|]. split; [done|]. split; [|done].
  exact (eq_sym Hright).
Qed.

Lemma reset_entry_restarts_the_round_witness :
  Slice.handleClick (Slice.jumpToMove xWonState 0) 4
  = Slice.handleClick (Slice.resetGame xWonState) 4.
Proof.
  destruct (reset_entry_restarts_the_round xWonState 4) as (_ & _ & H & _).
  - apply (reachable_clicks [0; 3; 1; 4; 2] Slice.initialState);
      [constructor | reflexivity].
  - lia.
  - exact H.
Defined.

(** ** [calculateWinner] never invents a winner *)

(** X14.  On every array, [calculateWinner] returns a mark only if one of
    the eight lines holds that mark in all three squares (and no line
    before it is complete), and returns [null] only if no line is complete;
    an array of fewer than three squares, the empty one included, has no
    winner. *)
Theorem calculateWinner_sound (sq : list SquareValue) :
  (∀ m, calculateWinner sq = Some m →
        ∃ before l after,
          lines = before ++ l :: after
          ∧ Forall (λ l', ∀ m', ¬ line_holds sq l' m') before
          ∧ line_holds sq l m)
  ∧ (calculateWinner sq = None →
     ∀ l m, l ∈ lines → ¬ line_holds sq l m)
  ∧ ((length sq < 3)%nat → calculateWinner sq = None).
Proof.
  split_and!.
  - intros m. apply scan_lines_some.
  - intros Hnone l m. by apply calculateWinner_no_line.
  - intros Hshort. apply scan_lines_none. intros l m Hin (Ha & Hb & Hc).
    apply lookup_lt_Some in Ha, Hb, Hc.
    repeat (apply elem_of_cons in Hin as [->|Hin]);
      [..|by apply elem_of_nil in Hin]; simpl in *; lia.
Qed.

Lemma calculateWinner_sound_witness :
  calculateWinner [Some X; Some X] = None
  ∧ ∃ before l after,
      lines = before ++ l :: after
      ∧ Forall (λ l',
                  ∀ m', ¬ line_holds
                            [Some O; None; Some X; None; Some O; Some X;
                             None; None; Some X] l' m') before
      ∧ line_holds [Some O; None; Some X; None; Some O; Some X;
                    None; None; Some X] l X.
Proof.
  split.
  - destruct (calculateWinner_sound [Some X; Some X]) as (_ & _ & H).
    apply H. simpl. lia.
  - destruct (calculateWinner_sound
                [Some O; None; Some X; None; Some O; Some X;
                 None; None; Some X]) as (H & _).
    apply H. reflexivity.
Defined.
